(** * LambdaToy: the term engine and the parser of [lambdatoy.py]

    A shallow embedding of the four node classes ([Lambda], [Apply], [Val],
    [Var]) with their methods [copy], [subst], [__eq__] and [beta_step], of
    the driver [beta_left], of [process_term], and of the regex lexer and the
    recursive-descent parser of class [Parser].

    The process-wide counter [gen = itertools.count(1)] is threaded explicitly:
    every computation that may compare two [Lambda] nodes is a function from
    the counter's next value to a result and the counter's new next value. *)

From Stdlib Require Import Bool Arith ZArith List String Ascii Lia.
From Stdlib Require Import Decimal DecimalNat DecimalString.
From Stdlib Require DecimalPos.
Import ListNotations.

Open Scope string_scope.

(** ** Literal values

    [Val.value] holds a Python [int], [float] or [str].  A float is kept as
    the number it denotes; the parser only builds floats with [float(s)] on a
    [number] token, which is never a NaN. *)

Inductive pyfloat : Type :=
| FZero (neg : bool)
| FInf (neg : bool)
| FFinite (neg : bool) (m : positive) (e : Z).

Inductive value : Type :=
| VInt (n : Z)
| VFloat (x : pyfloat)
| VStr (s : string).

(** [m * 2^e] against [m' * 2^e'], both scaled to the smaller exponent. *)
Definition mag_eqb (m : positive) (e : Z) (m' : positive) (e' : Z) : bool :=
  let lo := Z.min e e' in
  (Z.pos m * 2 ^ (e - lo) =? Z.pos m' * 2 ^ (e' - lo))%Z.

Definition float_eqb (x y : pyfloat) : bool :=
  match x, y with
  | FZero _, FZero _ => true
  | FInf a, FInf b => Bool.eqb a b
  | FFinite a m e, FFinite b m' e' => Bool.eqb a b && mag_eqb m e m' e'
  | _, _ => false
  end.

(** Python compares an [int] with a [float] by their exact values. *)
Definition int_float_eqb (n : Z) (x : pyfloat) : bool :=
  match x with
  | FZero _ => (n =? 0)%Z
  | FInf _ => false
  | FFinite neg m e =>
      match n with
      | Z0 => false
      | Zpos p => negb neg && mag_eqb p 0 m e
      | Zneg p => neg && mag_eqb p 0 m e
      end
  end.

(** [self.value == other.value] *)
Definition value_eqb (a b : value) : bool :=
  match a, b with
  | VInt n, VInt n' => (n =? n')%Z
  | VInt n, VFloat x => int_float_eqb n x
  | VFloat x, VInt n => int_float_eqb n x
  | VFloat x, VFloat y => float_eqb x y
  | VStr s, VStr s' => String.eqb s s'
  | _, _ => false
  end.

(** ** Terms: "a tree with 4 possible nodes" *)

Inductive term : Type :=
| Lambda (var : string) (body : term)
| Apply (fn : term) (expr : term)
| Val (v : value)
| Var (name : string).

Fixpoint size (t : term) : nat :=
  match t with
  | Lambda _ b => S (size b)
  | Apply f e => S (size f + size e)
  | Val _ => 1
  | Var _ => 1
  end.

(** Every name written in a term: parameters and variables. *)
Fixpoint names (t : term) : list string :=
  match t with
  | Lambda v b => v :: names b
  | Apply f e => names f ++ names e
  | Val _ => []
  | Var x => [x]
  end.

Fixpoint free_vars (t : term) : list string :=
  match t with
  | Lambda v b => filter (fun x => negb (String.eqb x v)) (free_vars b)
  | Apply f e => free_vars f ++ free_vars e
  | Val _ => []
  | Var x => [x]
  end.

(** [copy]: a deep clone. Nodes are never mutated, so a clone is the term. *)
Fixpoint copy (t : term) : term :=
  match t with
  | Lambda v b => Lambda v (copy b)
  | Apply f e => Apply (copy f) (copy e)
  | Val v => Val v
  | Var x => Var x
  end.

(** [subst(var, expr)] of the four classes. *)
Fixpoint subst (t : term) (var : string) (expr : term) : term :=
  match t with
  | Lambda v b =>
      if String.eqb var v then Lambda v b
      else Lambda v (subst b var expr)
  | Apply f e => Apply (subst f var expr) (subst e var expr)
  | Val v => Val v
  | Var x => if String.eqb x var then copy expr else copy (Var x)
  end.

(** ** The counter and the state-passing computations *)

Definition M (A : Type) : Type := nat -> A * nat.

Definition ret {A} (a : A) : M A := fun n => (a, n).

Definition bind {A B} (c : M A) (k : A -> M B) : M B :=
  fun n => let (a, n') := c n in k a n'.

Notation "x <- c ;; k" := (bind c (fun x => k))
  (at level 61, c at next level, right associativity).

(** [next(gen)] *)
Definition next_gen : M nat := fun n => (n, S n).

(** [f'x{k}'] *)
Definition fresh_name (k : nat) : string :=
  "x" ++ NilEmpty.string_of_uint (Nat.to_uint k).

(** [__eq__] of the four classes.  [Lambda.__eq__] recurses on the two
    substituted bodies, which are not sub-terms: the recursion is on a bound
    [fuel] that [term_eq] below sets from the size of the left term. *)
Fixpoint eq_fuel (fuel : nat) (a b : term) : M bool :=
  match fuel with
  | O => ret false
  | S fuel' =>
      match a, b with
      | Lambda v body, Lambda v' body' =>
          k <- next_gen ;;
          let unique_arg := Var (fresh_name k) in
          eq_fuel fuel' (subst body v unique_arg) (subst body' v' unique_arg)
      | Apply f e, Apply f' e' =>
          r <- eq_fuel fuel' f f' ;;
          if r then eq_fuel fuel' e e' else ret false
      | Val v, Val v' => ret (value_eqb v v')
      | Var x, Var x' => ret (String.eqb x x')
      | _, _ => ret false
      end
  end.

Definition term_eq (a b : term) : M bool := eq_fuel (size a) a b.

(** [beta_step] of the four classes; [Apply.beta_redex] is inlined. *)
Fixpoint beta_step (t : term) : M term :=
  match t with
  | Lambda v b =>
      b' <- beta_step b ;; ret (Lambda v b')
  | Apply f e =>
      match f with
      | Lambda v body => ret (subst body v e)
      | _ =>
          new_fun <- beta_step f ;;
          same <- term_eq f new_fun ;;
          if same then
            new_expr <- beta_step e ;; ret (Apply new_fun new_expr)
          else ret (Apply new_fun (copy e))
      end
  | Val v => ret (copy (Val v))
  | Var x => ret (copy (Var x))
  end.

(** [beta_left]: the loop runs at most [fuel] tests of [term != term_next];
    [None] says the bound was reached before the loop ended. *)
Fixpoint beta_loop (fuel : nat) (tm term_next : term) : M (option term) :=
  match fuel with
  | O => ret None
  | S fuel' =>
      same <- term_eq tm term_next ;;
      if same then ret (Some term_next)
      else
        nxt <- beta_step term_next ;;
        beta_loop fuel' term_next nxt
  end.

Definition beta_left (fuel : nat) (tm : term) : M (option term) :=
  term_next <- beta_step tm ;;
  beta_loop fuel tm term_next.

(** [known]: a dict, iterated in insertion order. *)
Definition env : Type := list (string * term).

(** The [for] loop of [process_term]. *)
Fixpoint inline_known (known : env) (t : term) : M term :=
  match known with
  | [] => ret t
  | (key, val) :: rest =>
      t' <- beta_step (Apply (Lambda key t) val) ;;
      inline_known rest t'
  end.

Definition process_term (fuel : nat) (known : env) (t : term)
  : M (option term) :=
  t' <- inline_known known t ;;
  beta_left fuel t'.

(** ** Rendering: [__repr__]

    [str(x)] of a float is Python's own; it is a parameter of [repr]. *)

(** [s.replace(old, new)] for a one-character [old]. *)
Fixpoint replace_char (old : ascii) (new : string) (s : string) : string :=
  match s with
  | EmptyString => EmptyString
  | String c r =>
      if Ascii.eqb c old then new ++ replace_char old new r
      else String c (replace_char old new r)
  end.

Definition quote : ascii := ascii_of_nat 34.
Definition backslash : ascii := ascii_of_nat 92.

(** [str(n)] of an [int] *)
Definition str_int (n : Z) : string :=
  match n with
  | Z0 => "0"
  | Zpos p => NilEmpty.string_of_uint (Pos.to_uint p)
  | Zneg p => String "-" (NilEmpty.string_of_uint (Pos.to_uint p))
  end.

Section Rendering.

Variable py_str_float : pyfloat -> string.

(** [Val.__repr__] *)
Definition val_repr (v : value) : string :=
  match v with
  | VStr s =>
      String quote
        (replace_char quote (String backslash (String quote "")) s
         ++ String quote "")
  | VInt n => str_int n
  | VFloat x => py_str_float x
  end.

(** [__repr__] of the four classes *)
Fixpoint repr (t : term) : string :=
  match t with
  | Lambda v b => "@" ++ v ++ " " ++ repr b
  | Apply f e =>
      let first :=
        match f with
        | Lambda _ _ => "(" ++ repr f ++ ")"
        | _ => repr f
        end in
      let second :=
        match e with
        | Var _ | Val _ => repr e
        | _ => "(" ++ repr e ++ ")"
        end in
      first ++ " " ++ second
  | Val v => val_repr v
  | Var x => x
  end.

End Rendering.

(** ** The lexer: [TOKENS] and [Parser.scan]

    A text is a [string] whose characters stand for the code points 0..255.
    Each pattern of [TOKENS] is written as the function that [re.match]
    computes for it: the matched prefix, or [None]. *)

Definition in_range (lo hi c : ascii) : bool :=
  (nat_of_ascii lo <=? nat_of_ascii c)%nat
  && (nat_of_ascii c <=? nat_of_ascii hi)%nat.

(** [\s] on a [str] pattern, for code points below 256 *)
Definition is_space (c : ascii) : bool :=
  let n := nat_of_ascii c in
  ((9 <=? n)%nat && (n <=? 13)%nat) || ((28 <=? n)%nat && (n <=? 32)%nat)
  || (n =? 133)%nat || (n =? 160)%nat.

Definition is_alpha (c : ascii) : bool :=
  in_range "a" "z" c || in_range "A" "Z" c.

Definition is_digit (c : ascii) : bool := in_range "0" "9" c.

(** [SYM] *)
Definition SYM : list ascii := list_ascii_of_string "-+!#$%^&*?,/[]=".

Definition is_sym (c : ascii) : bool := existsb (Ascii.eqb c) SYM.

Definition ident_start (c : ascii) : bool :=
  is_alpha c || Ascii.eqb c "_" || is_sym c.

Definition ident_char (c : ascii) : bool :=
  is_alpha c || is_digit c || Ascii.eqb c "_" || is_sym c.

(** The longest prefix whose characters satisfy [p]: a greedy [[...]*]. *)
Fixpoint take_while (p : ascii -> bool) (s : string) : string :=
  match s with
  | EmptyString => EmptyString
  | String c r => if p c then String c (take_while p r) else EmptyString
  end.

Fixpoint drop_while (p : ascii -> bool) (s : string) : string :=
  match s with
  | EmptyString => EmptyString
  | String c r => if p c then drop_while p r else s
  end.

(** [s[n:]] *)
Fixpoint drop (n : nat) (s : string) : string :=
  match n, s with
  | O, _ => s
  | S n', EmptyString => EmptyString
  | S n', String _ r => drop n' r
  end.

(** [s[:n]] *)
Fixpoint take (n : nat) (s : string) : string :=
  match n, s with
  | O, _ => EmptyString
  | S n', EmptyString => EmptyString
  | S n', String c r => String c (take n' r)
  end.

(** A one-character pattern such as [\(] *)
Definition re_char (ch : ascii) (s : string) : option string :=
  match s with
  | String c _ => if Ascii.eqb c ch then Some (String c "") else None
  | EmptyString => None
  end.

(** [IDENT] *)
Definition re_ident (s : string) : option string :=
  match s with
  | String c r =>
      if ident_start c then Some (String c (take_while ident_char r))
      else None
  | EmptyString => None
  end.

(** [ch] followed by [IDENT]: the patterns of [let] and [lambda] *)
Definition re_prefixed (ch : ascii) (s : string) : option string :=
  match s with
  | String c r =>
      if Ascii.eqb c ch then option_map (String c) (re_ident r) else None
  | EmptyString => None
  end.

(** [[0-9]+] *)
Definition re_digits (s : string) : option string :=
  match take_while is_digit s with
  | EmptyString => None
  | ds => Some ds
  end.

(** [(\-|\+)?] in front of [[0-9]+]: the sign is taken when it is there, and
    giving it back never helps, as a sign is no digit. *)
Definition re_signed_digits (s : string) : option string :=
  match s with
  | String c r =>
      if Ascii.eqb c "-" || Ascii.eqb c "+"
      then option_map (String c) (re_digits r)
      else re_digits s
  | EmptyString => None
  end.

(** An optional group: what it matches, or the empty match. *)
Definition re_opt (r : string -> option string) (s : string) : string :=
  match r s with
  | Some w => w
  | None => EmptyString
  end.

(** [(\-|\+)?[0-9]+(\.[0-9]+)?(E(\-|\+)?[0-9]+)?] *)
Definition re_number (s : string) : option string :=
  match re_signed_digits s with
  | None => None
  | Some int_part =>
      let s1 := drop (String.length int_part) s in
      let frac :=
        re_opt (fun t =>
                  match t with
                  | String "."%char r => option_map (String ".") (re_digits r)
                  | _ => None
                  end) s1 in
      let s2 := drop (String.length frac) s1 in
      let expo :=
        re_opt (fun t =>
                  match t with
                  | String "E"%char r =>
                      option_map (String "E") (re_signed_digits r)
                  | _ => None
                  end) s2 in
      Some (int_part ++ frac ++ expo)
  end.

(** The pattern of [string]: a quote, one character that is no quote, a
    quote. *)
Definition re_string (s : string) : option string :=
  match s with
  | String q1 (String c (String q2 _)) =>
      if Ascii.eqb q1 quote && negb (Ascii.eqb c quote) && Ascii.eqb q2 quote
      then Some (String q1 (String c (String q2 "")))
      else None
  | _ => None
  end.

(** The keys of [TOKENS] *)
Inductive token_key : Type :=
| KLpar | KRpar | KDot | KLet | KLambda | KNumber | KString | KVar.

Definition token_key_eqb (a b : token_key) : bool :=
  match a, b with
  | KLpar, KLpar | KRpar, KRpar | KDot, KDot | KLet, KLet
  | KLambda, KLambda | KNumber, KNumber | KString, KString
  | KVar, KVar => true
  | _, _ => false
  end.

(** [TOKENS], in the order of the dict *)
Definition TOKENS : list (token_key * (string -> option string)) :=
  [ (KLpar, re_char "(");
    (KRpar, re_char ")");
    (KDot, re_char ".");
    (KLet, re_prefixed ":");
    (KLambda, re_prefixed "@");
    (KNumber, re_number);
    (KString, re_string);
    (KVar, re_ident) ].

(** The [for] loop of [scan]: the first pattern that matches *)
Fixpoint first_match (tokens : list (token_key * (string -> option string)))
  (s : string) : option (token_key * string) :=
  match tokens with
  | [] => None
  | (key, r) :: rest =>
      match r s with
      | Some w => Some (key, w)
      | None => first_match rest s
      end
  end.

(** The two exceptions: [Invalid token at <pos> near <text>] of [scan] and
    [(<pos>): <msg>] of [error]. *)
Inductive error : Type :=
| InvalidToken (pos : nat) (near : string)
| SyntaxError (pos : nat) (msg : string).

Inductive result (A : Type) : Type :=
| Ok (a : A)
| Raise (e : error)
| OutOfFuel.

Arguments Ok {A} a.
Arguments Raise {A} e.
Arguments OutOfFuel {A}.

Definition rbind {A B} (c : result A) (k : A -> result B) : result B :=
  match c with
  | Ok a => k a
  | Raise e => Raise e
  | OutOfFuel => OutOfFuel
  end.

Notation "x <-- c ;; k" := (rbind c (fun x => k))
  (at level 61, c at next level, right associativity).

(** ** The parser

    [parse_expr] may return [None] (an expression with no atom), and that
    [None] may be stored as a child of an [Apply] or as the body of a
    [Lambda]: the parser's trees are [node]s, and [term_of_node] tells which
    of them are trees of the four classes only. *)

Inductive node : Type :=
| NNone
| NLambda (var : string) (body : node)
| NApply (fn : node) (expr : node)
| NVal (v : value)
| NVar (name : string).

Fixpoint term_of_node (x : node) : option term :=
  match x with
  | NNone => None
  | NLambda v b => option_map (Lambda v) (term_of_node b)
  | NApply f e =>
      match term_of_node f, term_of_node e with
      | Some f', Some e' => Some (Apply f' e')
      | _, _ => None
      end
  | NVal v => Some (Val v)
  | NVar x => Some (Var x)
  end.

(** What [parse] lists: a [Let] object, or an expression. *)
Inductive statement : Type :=
| SLet (var : string) (expr : node)
| STerm (expr : node).

(** [ApplyAccumulator.add], on the accumulator's [acc] *)
Definition add (acc tm : node) : node :=
  match acc with
  | NNone => tm
  | _ => NApply acc tm
  end.

(** [s.find(ch)] *)
Fixpoint find (ch : ascii) (s : string) : Z :=
  match s with
  | EmptyString => (-1)%Z
  | String c r =>
      if Ascii.eqb c ch then 0%Z
      else let i := find ch r in if (i <? 0)%Z then (-1)%Z else (i + 1)%Z
  end.

Fixpoint digits_value (acc : Z) (s : string) : Z :=
  match s with
  | EmptyString => acc
  | String c r =>
      digits_value (10 * acc + Z.of_nat (nat_of_ascii c - 48))%Z r
  end.

(** [int(s)] on a text of the [number] pattern without fraction or exponent *)
Definition py_int (s : string) : Z :=
  match s with
  | String "-"%char r => (- digits_value 0 r)%Z
  | String "+"%char r => digits_value 0 r
  | _ => digits_value 0 s
  end.

Module Parser.

(** The attributes of a [Parser] object *)
Record state : Type := mk_state {
  s : string;
  pos : nat;
  token : option token_key;
  word : string
}.

Definition token_is (st : state) (key : token_key) : bool :=
  match token st with
  | Some k => token_key_eqb k key
  | None => false
  end.

(** [scan] *)
Definition scan (st : state) : result state :=
  let found := take_while is_space (s st) in
  let s1 := drop (String.length found) (s st) in
  match s1 with
  | EmptyString => Ok (mk_state s1 (pos st) None (word st))
  | _ =>
      match first_match TOKENS s1 with
      | Some (key, w) =>
          Ok (mk_state (drop (String.length w) s1)
                       (pos st + String.length w) (Some key) w)
      | None => Raise (InvalidToken (pos st) (take 20 s1))
      end
  end.

(** [error] *)
Definition error {A} (st : state) (msg : string) : result A :=
  Raise (SyntaxError (pos st) msg).

Section Builtins.

(** [float(s)], Python's own conversion of a [number] text *)
Variable py_float : string -> pyfloat.

(** The [number] branch of [parse_expr] *)
Definition number_value (w : string) : value :=
  if (find "E" w >? -1)%Z || (find "." w >? 0)%Z
  then VFloat (py_float w)
  else VInt (py_int w).

(** [parse_expr] is [parse_expr_loop] from an empty accumulator, and
    [parse_lambda] is [parse_lambda_loop] from an empty list.  Every turn
    of a loop and every call costs one unit of [fuel]. *)
Fixpoint parse_expr_loop (fuel : nat) (acc : node) (st : state)
  {struct fuel} : result (node * state) :=
  match fuel with
  | O => OutOfFuel
  | S fuel' =>
      match token st with
      | None | Some KDot | Some KRpar => Ok (acc, st)
      | Some KLpar =>
          st1 <-- scan st ;;
          r <-- parse_expr_loop fuel' NNone st1 ;;
          let (e, st2) := (r : node * state) in
          if negb (token_is st2 KRpar) then error st2 ") expected"
          else
            st3 <-- scan st2 ;;
            parse_expr_loop fuel' (add acc e) st3
      | Some KLambda =>
          r <-- parse_lambda_loop fuel' [] st ;;
          let (e, st1) := (r : node * state) in
          parse_expr_loop fuel' (add acc e) st1
      | Some KVar =>
          let tm := NVar (word st) in
          st1 <-- scan st ;;
          parse_expr_loop fuel' (add acc tm) st1
      | Some KString =>
          let w := word st in
          let inner := take (String.length w - 2) (drop 1 w) in
          let tm := NVal (VStr (replace_char quote (String quote "") inner)) in
          st1 <-- scan st ;;
          parse_expr_loop fuel' (add acc tm) st1
      | Some KNumber =>
          let tm := NVal (number_value (word st)) in
          st1 <-- scan st ;;
          parse_expr_loop fuel' (add acc tm) st1
      | Some KLet => error st "Unexpected token"
      end
  end
with parse_lambda_loop (fuel : nat) (ll : list string) (st : state)
  {struct fuel} : result (node * state) :=
  match fuel with
  | O => OutOfFuel
  | S fuel' =>
      if token_is st KLambda then
        st1 <-- scan st ;;
        parse_lambda_loop fuel' (ll ++ [drop 1 (word st)]) st1
      else
        r <-- parse_expr_loop fuel' NNone st ;;
        let (res, st1) := (r : node * state) in
        Ok (fold_left (fun body l => NLambda l body) (List.rev ll) res, st1)
  end.

Definition parse_expr (fuel : nat) (st : state) : result (node * state) :=
  parse_expr_loop fuel NNone st.

Definition parse_lambda (fuel : nat) (st : state)
  : result (node * state) :=
  parse_lambda_loop fuel [] st.

(** One statement of [parse_statements], up to its closing dot. *)
Definition parse_statement (fuel : nat) (st : state)
  : result (statement * state) :=
  if token_is st KLet then
    let ident := drop 1 (word st) in
    st1 <-- scan st ;;
    if negb (token_is st1 KVar) || negb (String.eqb (word st1) "=")
    then error st1 "= expected"
    else
      st2 <-- scan st1 ;;
      r <-- parse_expr fuel st2 ;;
      let (e, st3) := (r : node * state) in
      Ok (SLet ident e, st3)
  else
    r <-- parse_expr fuel st ;;
    let (e, st1) := (r : node * state) in
    Ok (STerm e, st1).

(** [parse_statements], with [res] the list built so far *)
Fixpoint parse_statements (fuel : nat) (res : list statement)
  (st : state) : result (list statement * state) :=
  match fuel with
  | O => OutOfFuel
  | S fuel' =>
      match token st with
      | None => Ok (res, st)
      | Some _ =>
          r <-- parse_statement fuel' st ;;
          let (item, st1) := (r : statement * state) in
          if negb (token_is st1 KDot) then error st1 "'.' expected"
          else
            st2 <-- scan st1 ;;
            parse_statements fuel' (res ++ [item]) st2
      end
  end.

(** [parse], bounded by [fuel] *)
Definition parse_fuel (fuel : nat) (text : string)
  : result (list statement) :=
  st <-- scan (mk_state text 1 None EmptyString) ;;
  r <-- parse_statements fuel [] st ;;
  let (res, st1) := (r : list statement * state) in
  match token st1 with
  | Some _ => error st1 "EOF expected"
  | None => Ok res
  end.

(** [parse]: reading one token costs at most three units of fuel, and a
    token has a character at least, so this bound is never reached
    ([parse_total] below). *)
Definition parse (text : string) : result (list statement) :=
  parse_fuel (3 * String.length text + 2) text.

End Builtins.

End Parser.

(** ** Comparison up to the names of bound variables

    What [__eq__] should decide: [aeq] compares two terms with each bound
    variable read as the depth of its binder.  [inst e t] is [t] with its
    free variables renamed to the fresh names that [e] lists, the form in
    which [Lambda.__eq__] meets the bodies of binders it has opened. *)

Definition renaming : Type := list (string * nat).

Fixpoint lookup (e : renaming) (x : string) : option nat :=
  match e with
  | [] => None
  | (y, k) :: rest => if String.eqb x y then Some k else lookup rest x
  end.

Definition remove_key (v : string) (e : renaming) : renaming :=
  filter (fun p => negb (String.eqb (fst p) v)) e.

Fixpoint inst (e : renaming) (t : term) : term :=
  match t with
  | Lambda v b => Lambda v (inst (remove_key v e) b)
  | Apply f a => Apply (inst e f) (inst e a)
  | Val v => Val v
  | Var x =>
      match lookup e x with
      | Some k => Var (fresh_name k)
      | None => Var x
      end
  end.

Fixpoint aeq (d : nat) (da db : renaming) (a b : term) : bool :=
  match a, b with
  | Lambda v x, Lambda w y => aeq (S d) ((v, d) :: da) ((w, d) :: db) x y
  | Apply f x, Apply g y => aeq d da db f g && aeq d da db x y
  | Val v, Val w => value_eqb v w
  | Var x, Var y =>
      match lookup da x, lookup db y with
      | Some i, Some j => Nat.eqb i j
      | None, None => String.eqb x y
      | _, _ => false
      end
  | _, _ => false
  end.

(** No name of the term has the form of a fresh name. *)
Definition user_names (t : term) : Prop :=
  forall k, ~ In (fresh_name k) (names t).

Definition below (c : nat) (e : renaming) : Prop :=
  forall x i, lookup e x = Some i -> i < c.

Definition agree (ea eb da db : renaming) : Prop :=
  forall x y,
    (lookup ea x = None <-> lookup da x = None)
    /\ (lookup eb y = None <-> lookup db y = None)
    /\ (forall i j i' j',
          lookup ea x = Some i -> lookup eb y = Some j ->
          lookup da x = Some i' -> lookup db y = Some j' ->
          (i = j <-> i' = j')).

(** [p] holds of every character of [s]. *)
Fixpoint all_chars (p : ascii -> bool) (s : string) : bool :=
  match s with
  | EmptyString => true
  | String c r => p c && all_chars p r
  end.

(** A span between two quotes *)
Definition quoted (span : string) : string :=
  String quote (span ++ String quote "").

(** [ws1 . ws2 . ... wsk .]: one dot after each of the given strings *)
Fixpoint dotted (wss : list string) : string :=
  match wss with
  | [] => EmptyString
  | ws :: rest => ws ++ String "." (dotted rest)
  end.

(** What a parser state has yet to read: the text left, and one for the
    token in hand. *)
Definition pending (st : Parser.state) : nat :=
  String.length (Parser.s st)
  + match Parser.token st with Some _ => 1 | None => 0 end.

(** A parser call that ended, by a result that left no more to read than
    [bound] or by an exception. *)
Definition settled {A} (bound : nat) (r : result (A * Parser.state)) : Prop :=
  match r with
  | Ok (_, st') => pending st' <= bound
  | Raise _ => True
  | OutOfFuel => False
  end.

(** ** The iterates of [beta_left]

    The loop of [beta_left] holds two terms and the counter.  [first_cfg] is
    what it holds when the loop is first tested, [advance] is one turn of the
    loop body after a test that failed. *)

Record cfg : Type := mk_cfg {
  c_prev : term;
  c_next : term;
  c_ctr : nat
}.

Definition first_cfg (t : term) (n : nat) : cfg :=
  let (t1, n1) := beta_step t n in mk_cfg t t1 n1.

(** The test [term != term_next], negated: the answer and the counter after *)
Definition test (c : cfg) : bool * nat :=
  term_eq (c_prev c) (c_next c) (c_ctr c).

Definition advance (c : cfg) : cfg :=
  let (t2, n2) := beta_step (c_next c) (snd (test c)) in
  mk_cfg (c_next c) t2 n2.

Definition cfg_at (k : nat) (t : term) (n : nat) : cfg :=
  Nat.iter k advance (first_cfg t n).

(** A redex somewhere in the term: an [Apply] whose [fun] is a [Lambda],
    the test of [Apply.beta_step]. *)
Fixpoint has_redex (t : term) : bool :=
  match t with
  | Lambda _ b => has_redex b
  | Apply f e =>
      match f with
      | Lambda _ _ => true
      | _ => has_redex f || has_redex e
      end
  | Val _ => false
  | Var _ => false
  end.

(** The application of [@x x x] to itself; with the name [x] it is the term
    of the text [(@x x x)(@x x x)] that the library binds to [OMEGA]. *)
Definition self_apply (x : string) : term :=
  Apply (Lambda x (Apply (Var x) (Var x))) (Lambda x (Apply (Var x) (Var x))).

(** A term on which the fresh name of [==] meets a name of the term:
    [(@a a a)(@b b x<n>)], and its one-step image. *)
Definition collide_term (n : nat) : term :=
  Apply (Lambda "a" (Apply (Var "a") (Var "a")))
        (Lambda "b" (Apply (Var "b") (Var (fresh_name n)))).

Definition collide_step (n : nat) : term :=
  Apply (Lambda "b" (Apply (Var "b") (Var (fresh_name n))))
        (Lambda "b" (Apply (Var "b") (Var (fresh_name n)))).

(** [w] is a prefix of [s]. *)
Definition prefix_of (w s : string) : Prop :=
  w ++ drop (String.length w) s = s.

(** The messages of the calls of [error] outside [parse] itself *)
Definition expected_messages : list string :=
  ["= expected"; ") expected"; "Unexpected token"; "'.' expected"].

(** An exception of the parser that is no syntax exception, or one with a
    message of [expected_messages]. *)
Definition raise_ok {A} (r : result A) : Prop :=
  match r with
  | Raise (SyntaxError _ msg) => In msg expected_messages
  | _ => True
  end.

(** The term that the library binds to [Y], and what [beta_left] makes of
    it: [Y_iterate 0] is the parse of [@f (@g f (g g))(@g f (g g))], and
    [Y_iterate k] has [k] more [f] in front. *)
Fixpoint Y_body (u : string) (k : nat) : term :=
  match k with
  | O =>
      Apply (Lambda "g" (Apply (Var u) (Apply (Var "g") (Var "g"))))
            (Lambda "g" (Apply (Var u) (Apply (Var "g") (Var "g"))))
  | S k' => Apply (Var u) (Y_body u k')
  end.

Definition Y_iterate (k : nat) : term := Lambda "f" (Y_body "f" k).

(** * Properties of the term engine *)

Lemma copy_id (t : term) : copy t = t.
Proof.
  induction t; simpl; congruence.
Qed.

Lemma size_pos (t : term) : 1 <= size t.
Proof.
  destruct t; simpl; lia.
Qed.

Lemma size_subst_var (t : term) (v u : string) :
  size (subst t v (Var u)) = size t.
Proof.
  induction t; simpl.
  - destruct (String.eqb v var); simpl; congruence.
  - congruence.
  - reflexivity.
  - destruct (String.eqb name v); reflexivity.
Qed.

Lemma mag_eqb_refl (m : positive) (e : Z) : mag_eqb m e m e = true.
Proof.
  unfold mag_eqb. apply Z.eqb_refl.
Qed.

Lemma mag_eqb_sym (m : positive) (e : Z) (m' : positive) (e' : Z) :
  mag_eqb m e m' e' = mag_eqb m' e' m e.
Proof.
  unfold mag_eqb. rewrite (Z.min_comm e e'). apply Z.eqb_sym.
Qed.

Lemma float_eqb_refl (x : pyfloat) : float_eqb x x = true.
Proof.
  destruct x; simpl; auto using Bool.eqb_reflx.
  now rewrite Bool.eqb_reflx, mag_eqb_refl.
Qed.

Lemma bool_eqb_sym (a b : bool) : Bool.eqb a b = Bool.eqb b a.
Proof.
  now destruct a, b.
Qed.

Lemma float_eqb_sym (x y : pyfloat) : float_eqb x y = float_eqb y x.
Proof.
  destruct x, y; simpl; auto using bool_eqb_sym.
  now rewrite bool_eqb_sym, mag_eqb_sym.
Qed.

Lemma value_eqb_refl (v : value) : value_eqb v v = true.
Proof.
  destruct v; simpl.
  - apply Z.eqb_refl.
  - apply float_eqb_refl.
  - apply String.eqb_refl.
Qed.

Lemma value_eqb_sym (v w : value) : value_eqb v w = value_eqb w v.
Proof.
  destruct v, w; simpl; auto.
  - apply Z.eqb_sym.
  - apply float_eqb_sym.
  - apply String.eqb_sym.
Qed.

(** The bound of [eq_fuel] is immaterial once it covers the left term:
    [term_eq] never meets the exhausted case. *)
Lemma eq_fuel_enough (f : nat) :
  forall (f' : nat) (a b : term) (n : nat),
    size a <= f -> size a <= f' -> eq_fuel f a b n = eq_fuel f' a b n.
Proof.
  induction f as [|f IH]; intros f' a b n Hf Hf'.
  - pose proof (size_pos a). lia.
  - destruct f' as [|f']; [pose proof (size_pos a); lia|].
    destruct a, b; simpl in *; try reflexivity.
    + unfold bind, next_gen.
      apply IH; rewrite size_subst_var; lia.
    + unfold bind.
      rewrite (IH f' a1 b1 n) by lia.
      destruct (eq_fuel f' a1 b1 n) as [[|] n1]; [|reflexivity].
      apply IH; lia.
Qed.

Lemma eq_fuel_sym (f : nat) :
  forall (a b : term) (n : nat), eq_fuel f a b n = eq_fuel f b a n.
Proof.
  induction f as [|f IH]; intros a b n; [reflexivity|].
  destruct a, b; simpl; try reflexivity.
  - unfold bind, next_gen. apply IH.
  - unfold bind. rewrite (IH a1 b1 n).
    destruct (eq_fuel f b1 a1 n) as [[|] n1]; [|reflexivity].
    apply IH.
  - unfold ret. now rewrite value_eqb_sym.
  - unfold ret. now rewrite String.eqb_sym.
Qed.

Lemma eq_fuel_refl (f : nat) :
  forall (t : term) (n : nat), size t <= f -> fst (eq_fuel f t t n) = true.
Proof.
  induction f as [|f IH]; intros t n Hf.
  - pose proof (size_pos t). lia.
  - destruct t; simpl in *.
    + unfold bind, next_gen. apply IH. rewrite size_subst_var. lia.
    + unfold bind.
      pose proof (IH t1 n ltac:(lia)) as H1.
      destruct (eq_fuel f t1 t1 n) as [r n1]. simpl in H1. subst r.
      apply IH. lia.
    + apply value_eqb_refl.
    + apply String.eqb_refl.
Qed.

(** [t == t] is true at every value of the counter. *)
Lemma term_eq_refl (t : term) (n : nat) : fst (term_eq t t n) = true.
Proof.
  apply eq_fuel_refl. lia.
Qed.

(** From one and the same value of the counter, [a == b] and [b == a] give
    the same answer and leave the same counter. *)
Lemma term_eq_sym_same_counter (a b : term) (n : nat) :
  term_eq a b n = term_eq b a n.
Proof.
  unfold term_eq.
  rewrite (eq_fuel_enough (size a) (Nat.max (size a) (size b)) a b n) by lia.
  rewrite eq_fuel_sym.
  apply eq_fuel_enough; lia.
Qed.

Lemma fresh_name_inj (j k : nat) : fresh_name j = fresh_name k -> j = k.
Proof.
  unfold fresh_name. simpl. intros H. injection H as H.
  apply Unsigned.to_uint_inj.
  assert (Hs : Some (Nat.to_uint j) = Some (Nat.to_uint k))
    by (rewrite <- !NilEmpty.usu; now rewrite H).
  now injection Hs.
Qed.

Lemma fresh_name_eqb_succ (n : nat) :
  String.eqb (fresh_name n) (fresh_name (S n)) = false.
Proof.
  apply String.eqb_neq. intros H. apply fresh_name_inj in H. lia.
Qed.

Lemma fresh_name_not_y (n : nat) : String.eqb (fresh_name n) "y" = false.
Proof.
  reflexivity.
Qed.

(** ** Substitution and the reduction step *)

Lemma subst_not_free (t : term) (v : string) (e : term) :
  ~ In v (free_vars t) -> subst t v e = t.
Proof.
  induction t; simpl; intros H.
  - destruct (String.eqb v var) eqn:E; [reflexivity|].
    rewrite IHt; [reflexivity|].
    intros Hin. apply H. apply filter_In. split; [assumption|].
    now rewrite E.
  - rewrite in_app_iff in H.
    rewrite IHt1, IHt2; tauto.
  - reflexivity.
  - destruct (String.eqb name v) eqn:E; [|reflexivity].
    apply String.eqb_eq in E. tauto.
Qed.

Lemma beta_step_redex_eq (v : string) (body arg : term) (n : nat) :
  beta_step (Apply (Lambda v body) arg) n = ret (subst body v arg) n.
Proof.
  reflexivity.
Qed.


(** C3. Substituting [r] for [n] in [Lambda p body] gives the abstraction
    itself when [p] is [n], and [Lambda p (subst body n r)] otherwise, with
    [p] kept as it is; so, for the body [Var n], the result is [Lambda p r],
    in which no occurrence of [p] is free, whatever [r] holds. *)
Theorem subst_Lambda_keeps_parameter (p n : string) (body r : term) :
  (p = n -> subst (Lambda p body) n r = Lambda p body) /\
  (p <> n -> subst (Lambda p body) n r = Lambda p (subst body n r)) /\
  (p <> n -> In p (free_vars r) ->
     subst (Lambda p (Var n)) n r = Lambda p r /\
     ~ In p (free_vars (subst (Lambda p (Var n)) n r))).
Proof.
  repeat split.
  - intros ->. simpl. now rewrite String.eqb_refl.
  - intros Hne. simpl.
    destruct (String.eqb n p) eqn:E; [|reflexivity].
    apply String.eqb_eq in E. congruence.
  - simpl. destruct (String.eqb n p) eqn:E.
    + apply String.eqb_eq in E. congruence.
    + now rewrite String.eqb_refl, copy_id.
  - simpl. destruct (String.eqb n p) eqn:E.
    + apply String.eqb_eq in E. congruence.
    + simpl. rewrite String.eqb_refl, copy_id.
      intros Hin. apply filter_In in Hin. destruct Hin as [_ Hin].
      now rewrite String.eqb_refl in Hin.
Qed.

Lemma subst_Lambda_keeps_parameter_witness :
  subst (Lambda "y" (Var "x")) "x" (Var "y") = Lambda "y" (Var "y")
  /\ ~ In "y" (free_vars (subst (Lambda "y" (Var "x")) "x" (Var "y"))).
Proof.
  apply (subst_Lambda_keeps_parameter "y" "x" (Var "x") (Var "y")).
  - discriminate.
  - simpl. auto.
Defined.

(** ** The fresh variable of [Lambda.__eq__] *)

(** C4. At every value [n] of the counter, the name drawn by
    [Lambda.__eq__] is a name of the term [Lambda y (Var x<n>)]; compared
    with [Lambda y (Var y)], the two bodies become the same variable and the
    comparison answers [true], although the first term is closed and the
    second has a free variable. *)
Theorem fresh_name_collides (n : nat) :
  let a := Lambda "y" (Var "y") in
  let b := Lambda "y" (Var (fresh_name n)) in
  In (fresh_name n) (names b)
  /\ free_vars a = [] /\ free_vars b = [fresh_name n]
  /\ term_eq a b n = (true, S n).
Proof.
  cbv zeta. repeat split.
  - simpl. auto.
  - unfold term_eq, bind, next_gen, ret. cbn -[fresh_name String.eqb].
    rewrite fresh_name_not_y, (String.eqb_refl "y").
    cbn -[fresh_name String.eqb].
    now rewrite String.eqb_refl.
Qed.

(** C7. At every value [n] of the counter, [a == b] followed by [b == a]
    answers [true] and then [false] for [a = Lambda y (Var y)] and
    [b = Lambda y (Var x<n>)]: the second call draws another name. *)
Theorem term_eq_not_symmetric_across_calls (n : nat) :
  let a := Lambda "y" (Var "y") in
  let b := Lambda "y" (Var (fresh_name n)) in
  (r1 <- term_eq a b ;; r2 <- term_eq b a ;; ret (r1, r2)) n
  = ((true, false), S (S n)).
Proof.
  cbv zeta.
  unfold term_eq, bind, next_gen, ret. cbn -[fresh_name String.eqb].
  rewrite fresh_name_not_y, (String.eqb_refl "y").
  cbn -[fresh_name String.eqb].
  rewrite String.eqb_refl.
  now rewrite fresh_name_eqb_succ.
Qed.

(** ** When the fresh names are fresh *)

Lemma lookup_remove_key_same (v : string) (e : renaming) :
  lookup (remove_key v e) v = None.
Proof.
  induction e as [|[y k] e IH]; simpl; [reflexivity|].
  destruct (String.eqb y v) eqn:E; simpl; [assumption|].
  rewrite String.eqb_sym, E. assumption.
Qed.

Lemma lookup_remove_key_other (v x : string) (e : renaming) :
  String.eqb x v = false -> lookup (remove_key v e) x = lookup e x.
Proof.
  intros Hx. induction e as [|[y k] e IH]; simpl; [reflexivity|].
  destruct (String.eqb y v) eqn:E; simpl.
  - apply String.eqb_eq in E. subst y. now rewrite Hx.
  - now rewrite IH.
Qed.

Lemma remove_key_idem (v : string) (e : renaming) :
  remove_key v (remove_key v e) = remove_key v e.
Proof.
  unfold remove_key. induction e as [|[y k] e IH]; simpl; [reflexivity|].
  destruct (String.eqb y v) eqn:E; simpl; [assumption|].
  now rewrite E, IH.
Qed.

Lemma remove_key_comm (v w : string) (e : renaming) :
  remove_key v (remove_key w e) = remove_key w (remove_key v e).
Proof.
  unfold remove_key. induction e as [|[y k] e IH]; simpl; [reflexivity|].
  destruct (String.eqb y w) eqn:Ew, (String.eqb y v) eqn:Ev; simpl;
    rewrite ?Ew, ?Ev; simpl; now rewrite ?IH.
Qed.

Lemma fresh_name_eqb (j k : nat) :
  String.eqb (fresh_name j) (fresh_name k) = Nat.eqb j k.
Proof.
  destruct (Nat.eqb j k) eqn:E.
  - apply Nat.eqb_eq in E. subst. apply String.eqb_refl.
  - apply String.eqb_neq. intros H. apply fresh_name_inj in H.
    apply Nat.eqb_neq in E. contradiction.
Qed.

Lemma subst_inst (b : term) :
  forall (e : renaming) (v : string) (k : nat),
    (forall j, v <> fresh_name j) ->
    subst (inst (remove_key v e) b) v (Var (fresh_name k))
    = inst ((v, k) :: e) b.
Proof.
  induction b as [w b IH|f IHf a IHa|c|x]; intros e v k Hv.
  - cbn [inst subst].
    destruct (String.eqb v w) eqn:E.
    + apply String.eqb_eq in E. subst w.
      rewrite remove_key_idem. f_equal. f_equal.
      unfold remove_key. simpl. now rewrite String.eqb_refl.
    + f_equal. rewrite remove_key_comm. rewrite IH by assumption.
      f_equal. unfold remove_key at 2. simpl. now rewrite E.
  - cbn [inst subst]. now rewrite IHf, IHa.
  - reflexivity.
  - cbn [inst lookup].
    destruct (String.eqb x v) eqn:E.
    + apply String.eqb_eq in E. subst x.
      rewrite lookup_remove_key_same. cbn [subst].
      now rewrite String.eqb_refl.
    + rewrite lookup_remove_key_other by assumption.
      destruct (lookup e x) as [j|]; cbn [subst].
      * destruct (String.eqb (fresh_name j) v) eqn:E'; [|reflexivity].
        apply String.eqb_eq in E'. symmetry in E'. now apply Hv in E'.
      * now rewrite E.
Qed.

Lemma inst_nil (t : term) : inst [] t = t.
Proof.
  induction t; simpl; congruence.
Qed.

Lemma size_inst (t : term) : forall e, size (inst e t) = size t.
Proof.
  induction t; intros e; simpl; auto.
  destruct (lookup e name); reflexivity.
Qed.

Lemma agree_cons (ea eb da db : renaming) (v w : string) (c d : nat) :
  agree ea eb da db ->
  below c ea -> below c eb -> below d da -> below d db ->
  agree ((v, c) :: ea) ((w, c) :: eb) ((v, d) :: da) ((w, d) :: db).
Proof.
  intros Hag Ha Hb Hda Hdb x y. simpl.
  destruct (Hag x y) as [H1 [H2 H3]].
  destruct (String.eqb x v), (String.eqb y w); (split; [|split]);
    try assumption;
    try (split; intros; discriminate);
    intros i j i' j' Ei Ej Ei' Ej';
    try (now apply H3);
    repeat match goal with
           | H : Some _ = Some _ |- _ => injection H as H
           | H : lookup ea _ = Some _ |- _ => apply Ha in H
           | H : lookup eb _ = Some _ |- _ => apply Hb in H
           | H : lookup da _ = Some _ |- _ => apply Hda in H
           | H : lookup db _ = Some _ |- _ => apply Hdb in H
           end; lia.
Qed.

Lemma below_cons (c : nat) (e : renaming) (v : string) :
  below c e -> below (S c) ((v, c) :: e).
Proof.
  intros H x i. simpl. destruct (String.eqb x v).
  - intros E. injection E as <-. lia.
  - intros E. apply H in E. lia.
Qed.

Lemma below_le (c c' : nat) (e : renaming) :
  c <= c' -> below c e -> below c' e.
Proof.
  intros Hle H x i E. apply H in E. lia.
Qed.

Lemma eq_fuel_aeq (a : term) :
  forall (b : term) (f : nat) (ea eb da db : renaming) (c d : nat),
    size a <= f ->
    user_names a -> user_names b ->
    below c ea -> below c eb -> below d da -> below d db ->
    agree ea eb da db ->
    exists c', c <= c' /\
      eq_fuel f (inst ea a) (inst eb b) c = (aeq d da db a b, c').
Proof.
  induction a as [v x IH|g IHg x IHx|u|x];
    intros b f ea eb da db c d Hf Ua Ub Ha Hb Hda Hdb Hag;
    (destruct f as [|f]; [simpl in Hf; lia|]).
  - destruct b as [w y|? ?|?|y]; cbn [inst aeq eq_fuel];
      try (exists c; split; [lia|];
           try destruct (lookup eb y); reflexivity).
    unfold bind, next_gen.
    assert (Hv : forall j, v <> fresh_name j)
      by (intros j E; apply (Ua j); simpl; auto).
    assert (Hw : forall j, w <> fresh_name j)
      by (intros j E; apply (Ub j); simpl; auto).
    rewrite !subst_inst by assumption.
    destruct (IH y f ((v, c) :: ea) ((w, c) :: eb)
                ((v, d) :: da) ((w, d) :: db) (S c) (S d))
      as [c' [Hc' He]]; auto using below_cons, agree_cons.
    + simpl in Hf. lia.
    + intros k Hin. apply (Ua k). simpl. auto.
    + intros k Hin. apply (Ub k). simpl. auto.
    + exists c'. split; [lia | assumption].
  - destruct b as [w y|h y|?|y]; cbn [inst aeq eq_fuel];
      try (exists c; split; [lia|];
           try destruct (lookup eb y); reflexivity).
    unfold bind. simpl in Hf.
    destruct (IHg h f ea eb da db c d) as [c1 [Hc1 He1]]; auto; try lia.
    { intros k Hin. apply (Ua k). simpl. apply in_or_app. auto. }
    { intros k Hin. apply (Ub k). simpl. apply in_or_app. auto. }
    rewrite He1.
    destruct (aeq d da db g h); simpl.
    + destruct (IHx y f ea eb da db c1 d) as [c2 [Hc2 He2]];
        eauto using below_le; try lia.
      { intros k Hin. apply (Ua k). simpl. apply in_or_app. auto. }
      { intros k Hin. apply (Ub k). simpl. apply in_or_app. auto. }
      exists c2. split; [lia | assumption].
    + exists c1. split; [lia | reflexivity].
  - destruct b as [w y|? ?|?|y]; cbn [inst aeq eq_fuel];
      try (exists c; split; [lia|];
           try destruct (lookup eb y); reflexivity).
  - destruct (Hag x x) as [Hx _].
    destruct b as [w y|? ?|?|y]; cbn [inst aeq];
      try (exists c; split; [lia|];
           destruct (lookup ea x), (lookup da x); reflexivity).
    destruct (Hag x y) as [H1 [H2 H3]].
    exists c. split; [lia|].
    destruct (lookup ea x) as [i|] eqn:Ei, (lookup eb y) as [j|] eqn:Ej,
      (lookup da x) as [i'|] eqn:Ei', (lookup db y) as [j'|] eqn:Ej';
      try (exfalso; (assert (@None nat = None) as E by reflexivity);
           (apply H1 in E || apply H2 in E || apply <- H1 in E
            || apply <- H2 in E); discriminate);
      cbn [eq_fuel]; unfold ret.
    + rewrite fresh_name_eqb. f_equal.
      specialize (H3 i j i' j' eq_refl eq_refl eq_refl eq_refl).
      destruct (Nat.eqb i j) eqn:E, (Nat.eqb i' j') eqn:E'; try reflexivity.
      * apply Nat.eqb_eq in E. apply Nat.eqb_neq in E'. tauto.
      * apply Nat.eqb_neq in E. apply Nat.eqb_eq in E'. tauto.
    + f_equal. apply String.eqb_neq. intros E.
      apply (Ub i). simpl. auto.
    + f_equal. apply String.eqb_neq. intros E.
      apply (Ua j). simpl. auto.
    + reflexivity.
Qed.

Lemma below_nil (c : nat) : below c [].
Proof.
  intros x i. discriminate.
Qed.

Lemma agree_nil : agree [] [] [] [].
Proof.
  intros x y. simpl. repeat split; auto; discriminate.
Qed.

(** Between terms that hold no name of the form of a fresh name, [==]
    decides [aeq], whatever the counter. *)
Theorem term_eq_decides_aeq (a b : term) (n : nat) :
  user_names a -> user_names b ->
  fst (term_eq a b n) = aeq 0 [] [] a b.
Proof.
  intros Ua Ub.
  destruct (eq_fuel_aeq a b (size a) [] [] [] [] n 0)
    as [c' [_ He]]; auto using below_nil, agree_nil.
  rewrite !inst_nil in He. unfold term_eq. now rewrite He.
Qed.

(** Between such terms the two orders agree across calls. *)
Corollary term_eq_sym_user_names (a b : term) (n m : nat) :
  user_names a -> user_names b ->
  fst (term_eq a b n) = fst (term_eq b a m).
Proof.
  intros Ua Ub.
  rewrite (term_eq_decides_aeq a b n), <- (term_eq_decides_aeq a b m)
    by assumption.
  now rewrite term_eq_sym_same_counter.
Qed.

(** ** The driver [beta_left] *)

Lemma cfg_at_succ (k : nat) (t : term) (n : nat) :
  cfg_at (S k) t n = advance (cfg_at k t n).
Proof.
  reflexivity.
Qed.

(** Each configuration holds a term and its one-step image. *)
Lemma cfg_at_image (k : nat) (t : term) (n : nat) :
  exists m,
    beta_step (c_prev (cfg_at k t n)) m
    = (c_next (cfg_at k t n), c_ctr (cfg_at k t n)).
Proof.
  destruct k as [|k].
  - exists n. unfold cfg_at, first_cfg. simpl.
    now destruct (beta_step t n) eqn:E.
  - rewrite cfg_at_succ. unfold advance.
    exists (snd (test (cfg_at k t n))).
    now destruct (beta_step (c_next (cfg_at k t n))
                   (snd (test (cfg_at k t n)))) eqn:E.
Qed.

Lemma cfg_at_chain (k : nat) (t : term) (n : nat) :
  c_prev (cfg_at (S k) t n) = c_next (cfg_at k t n).
Proof.
  rewrite cfg_at_succ. unfold advance.
  now destruct (beta_step (c_next (cfg_at k t n)) (snd (test (cfg_at k t n)))).
Qed.

(** The loop, read from any configuration [c]: it answers [Some r] exactly
    when some configuration within the bound passes the test, and then [r]
    is the second term of the first one that does. *)
Lemma beta_loop_first_stop (fuel : nat) :
  forall (c : cfg) (r : term) (n' : nat),
    beta_loop fuel (c_prev c) (c_next c) (c_ctr c) = (Some r, n') <->
    exists k,
      k < fuel
      /\ (forall j, j < k -> fst (test (Nat.iter j advance c)) = false)
      /\ test (Nat.iter k advance c) = (true, n')
      /\ r = c_next (Nat.iter k advance c).
Proof.
  induction fuel as [|fuel IH]; intros c r n'.
  - simpl. unfold ret. split; [discriminate|].
    intros [k [Hk _]]. lia.
  - simpl. unfold bind.
    change (term_eq (c_prev c) (c_next c) (c_ctr c)) with (test c).
    destruct (test c) as [same n1] eqn:Ht. destruct same.
    + unfold ret. split.
      * intros H. injection H as <- <-. exists 0. simpl.
        repeat split; [lia | intros j Hj; lia | assumption].
      * intros [k [_ [Hfirst [Hstop Hr]]]].
        destruct k as [|k].
        -- simpl in Hstop, Hr. rewrite Ht in Hstop. congruence.
        -- specialize (Hfirst 0 ltac:(lia)). simpl in Hfirst.
           rewrite Ht in Hfirst. discriminate.
    + destruct (beta_step (c_next c) n1) as [nxt n2] eqn:Hs.
      assert (Hadv : advance c = mk_cfg (c_next c) nxt n2)
        by (unfold advance; rewrite Ht; simpl; now rewrite Hs).
      specialize (IH (mk_cfg (c_next c) nxt n2) r n'). simpl in IH.
      rewrite IH. rewrite <- Hadv. split.
      * intros [k [Hk [Hfirst [Hstop Hr]]]].
        exists (S k). rewrite Nat.iter_succ_r.
        repeat split; [lia | | assumption | assumption].
        intros [|j] Hj; [simpl; now rewrite Ht|].
        rewrite Nat.iter_succ_r. apply Hfirst. lia.
      * intros [k [Hk [Hfirst [Hstop Hr]]]].
        destruct k as [|k].
        -- simpl in Hstop. rewrite Ht in Hstop. discriminate.
        -- rewrite Nat.iter_succ_r in Hstop, Hr.
           exists k. repeat split; [lia | | assumption | assumption].
           intros j Hj. specialize (Hfirst (S j) ltac:(lia)).
           now rewrite Nat.iter_succ_r in Hfirst.
Qed.

Lemma beta_left_first_stop (fuel : nat) (t r : term) (n n' : nat) :
  beta_left fuel t n = (Some r, n') <->
  exists k,
    k < fuel
    /\ (forall j, j < k -> fst (test (cfg_at j t n)) = false)
    /\ test (cfg_at k t n) = (true, n')
    /\ r = c_next (cfg_at k t n).
Proof.
  unfold beta_left, bind, cfg_at.
  destruct (beta_step t n) as [t1 n1] eqn:Hs.
  assert (Hc : first_cfg t n = mk_cfg t t1 n1)
    by (unfold first_cfg; now rewrite Hs).
  rewrite Hc. apply (beta_loop_first_stop fuel (mk_cfg t t1 n1)).
Qed.

(** Enough fuel gives the result: if the [k]-th test is the first to pass,
    any bound above [k] returns the second term of that configuration. *)
Lemma beta_left_returns (fuel k : nat) (t : term) (n : nat) :
  k < fuel ->
  (forall j, j < k -> fst (test (cfg_at j t n)) = false) ->
  fst (test (cfg_at k t n)) = true ->
  beta_left fuel t n
  = (Some (c_next (cfg_at k t n)), snd (test (cfg_at k t n))).
Proof.
  intros Hk Hfirst Hstop.
  apply beta_left_first_stop. exists k.
  repeat split; try assumption.
  destruct (test (cfg_at k t n)); simpl in *; congruence.
Qed.

Lemma fresh_name_not_a_b (n : nat) :
  String.eqb (fresh_name n) "a" = false
  /\ String.eqb (fresh_name n) "b" = false.
Proof.
  split; reflexivity.
Qed.

Lemma beta_step_collide (n m : nat) :
  beta_step (collide_term n) m = (collide_step n, m).
Proof.
  unfold collide_term, collide_step. rewrite beta_step_redex_eq.
  unfold ret. cbn -[fresh_name String.eqb].
  now rewrite (String.eqb_refl "a").
Qed.

Ltac eq_collide_steps H :=
  repeat (progress
            (unfold bind, next_gen, ret;
             cbn -[fresh_name String.eqb];
             rewrite ?(String.eqb_refl "a"), ?(String.eqb_refl "b"), ?H,
               ?String.eqb_refl)).

Lemma term_eq_collide (n : nat) :
  term_eq (collide_term n) (collide_step n) n = (true, S (S n)).
Proof.
  destruct (fresh_name_not_a_b n) as [_ Hb].
  unfold term_eq, collide_term, collide_step, bind, next_gen, ret.
  eq_collide_steps Hb. reflexivity.
Qed.

Lemma aeq_collide (n : nat) :
  aeq 0 [] [] (collide_term n) (collide_step n) = false.
Proof.
  destruct (fresh_name_not_a_b n) as [_ Hb].
  unfold collide_term, collide_step.
  cbn -[fresh_name String.eqb].
  rewrite (String.eqb_refl "a"), (String.eqb_refl "b"), Hb. reflexivity.
Qed.

(** C5. [beta_left] stops where [==] answers [True], and that is not always
    where two consecutive results are equal up to bound names: for the term
    [(@a a a)(@b b x<n>)] at the counter value [n], the first test draws
    [x<n>] and succeeds, and [beta_left] returns the one-step image
    [(@b b x<n>)(@b b x<n>)], which is not equal to the term up to bound
    names and still holds a redex; from another counter value the same term
    is reduced two steps further. *)
Theorem beta_left_stops_at_collision (n fuel : nat) :
  beta_step (collide_term n) n = (collide_step n, n)
  /\ term_eq (collide_term n) (collide_step n) n = (true, S (S n))
  /\ aeq 0 [] [] (collide_term n) (collide_step n) = false
  /\ beta_left (S fuel) (collide_term n) n
     = (Some (collide_step n), S (S n))
  /\ has_redex (collide_step n) = true
  /\ fst (beta_left 4 (collide_term 7) 1)
     = Some (Apply (Var "x7") (Var "x7")).
Proof.
  split; [apply beta_step_collide|].
  split; [apply term_eq_collide|].
  split; [apply aeq_collide|].
  split; [|split; reflexivity].
  unfold beta_left, bind. rewrite beta_step_collide.
  cbn [beta_loop]. unfold bind. now rewrite term_eq_collide.
Qed.

(** ** [process_term] *)

Lemma inline_known_subst (known : env) :
  forall (t : term) (n : nat),
    inline_known known t n
    = (fold_left (fun acc kv => subst acc (fst kv) (snd kv)) known t, n).
Proof.
  induction known as [|[key val] rest IH]; intros t n; [reflexivity|].
  cbn [inline_known]. unfold bind.
  rewrite beta_step_redex_eq. unfold ret. apply IH.
Qed.

(** C9. [process_term] takes the bindings of [known] in insertion order,
    replaces the term by one step of [Apply (Lambda key term) val] for each,
    which is [subst term key val] and draws nothing from the counter, and
    only then runs [beta_left] on the outcome. *)
Theorem process_term_inlines_then_reduces
  (fuel : nat) (known : env) (t : term) (n : nat) :
  (forall key val rest u m,
      inline_known ((key, val) :: rest) u m
      = inline_known rest (fst (beta_step (Apply (Lambda key u) val) m)) m)
  /\ (forall key val u m,
        beta_step (Apply (Lambda key u) val) m = (subst u key val, m))
  /\ process_term fuel known t n
     = beta_left fuel
         (fold_left (fun acc kv => subst acc (fst kv) (snd kv)) known t) n.
Proof.
  repeat split.
  unfold process_term, bind. now rewrite inline_known_subst.
Qed.

(** * Properties of the lexer *)

Lemma take_while_app_stop (p : ascii -> bool) (ws : string) (c : ascii)
  (r : string) :
  all_chars p ws = true -> p c = false ->
  take_while p (ws ++ String c r) = ws.
Proof.
  intros Hall Hc. induction ws as [|a ws IH]; simpl in *.
  - now rewrite Hc.
  - apply andb_true_iff in Hall. destruct Hall as [Ha Hall].
    rewrite Ha. now rewrite IH.
Qed.

Lemma take_while_all (p : ascii -> bool) (ws : string) :
  all_chars p ws = true -> take_while p ws = ws.
Proof.
  induction ws as [|a ws IH]; simpl; intros Hall; [reflexivity|].
  apply andb_true_iff in Hall. destruct Hall as [Ha Hall].
  rewrite Ha. now rewrite IH.
Qed.

Lemma drop_length_app (a b : string) : drop (String.length a) (a ++ b) = b.
Proof.
  induction a as [|c a IH]; simpl; [now destruct b | assumption].
Qed.

Lemma drop_length_all (a : string) : drop (String.length a) a = EmptyString.
Proof.
  induction a as [|c a IH]; simpl; [reflexivity | assumption].
Qed.

Lemma length_app (a b : string) :
  String.length (a ++ b) = String.length a + String.length b.
Proof.
  induction a as [|c a IH]; simpl; [reflexivity | now rewrite IH].
Qed.

Lemma app_String_assoc (a b : string) (c : ascii) (r : string) :
  (a ++ String c r) ++ b = a ++ String c (r ++ b).
Proof.
  induction a as [|d a IH]; simpl; [reflexivity | now rewrite IH].
Qed.

Lemma length_dotted (wss : list string) :
  List.length wss <= String.length (dotted wss).
Proof.
  induction wss as [|ws wss IH]; simpl; [lia|].
  rewrite length_app. simpl. lia.
Qed.

Lemma all_chars_app (p : ascii -> bool) (a b : string) :
  all_chars p (a ++ b) = all_chars p a && all_chars p b.
Proof.
  induction a as [|c a IH]; simpl; [reflexivity|].
  now rewrite IH, andb_assoc.
Qed.

(** The pattern of [string] matches three characters and no more. *)
Lemma re_string_spec (s w : string) :
  re_string s = Some w <->
  exists c rest,
    Ascii.eqb c quote = false
    /\ s = String quote (String c (String quote rest))
    /\ w = String quote (String c (String quote "")).
Proof.
  split.
  - destruct s as [|q1 [|c [|q2 rest]]]; simpl; try discriminate.
    destruct (Ascii.eqb q1 quote) eqn:E1; simpl; [|discriminate].
    destruct (Ascii.eqb c quote) eqn:E2; simpl; [discriminate|].
    destruct (Ascii.eqb q2 quote) eqn:E3; [|discriminate].
    apply Ascii.eqb_eq in E1, E3. subst q1 q2.
    intros H. injection H as <-. now exists c, rest.
  - intros [c [rest [Hc [-> ->]]]]. simpl.
    change (Ascii.eqb quote quote) with true. now rewrite Hc.
Qed.

(** A text that opens with a quote is matched by the pattern of [string] or
    by none. *)
Lemma first_match_quote (r : string) :
  first_match TOKENS (String quote r)
  = option_map (pair KString) (re_string (String quote r)).
Proof.
  unfold TOKENS, first_match.
  change (re_char "(" (String quote r)) with (@None string).
  change (re_char ")" (String quote r)) with (@None string).
  change (re_char "." (String quote r)) with (@None string).
  change (re_prefixed ":" (String quote r)) with (@None string).
  change (re_prefixed "@" (String quote r)) with (@None string).
  change (re_number (String quote r)) with (@None string).
  change (re_ident (String quote r)) with (@None string).
  now destruct (re_string (String quote r)).
Qed.

Lemma re_string_quoted_one (c : ascii) (rest : string) :
  Ascii.eqb c quote = false ->
  re_string (quoted (String c "") ++ rest)
  = Some (quoted (String c "")).
Proof.
  intros Hc. apply re_string_spec. now exists c, rest.
Qed.

Lemma re_string_quoted_other (span rest : string) :
  all_chars (fun c => negb (Ascii.eqb c quote)) span = true ->
  String.length span <> 1 ->
  re_string (quoted span ++ rest) = None.
Proof.
  intros Hall Hlen.
  destruct span as [|c [|d span]]; simpl in *.
  - now destruct rest.
  - congruence.
  - apply andb_true_iff in Hall. destruct Hall as [_ Hall].
    apply andb_true_iff in Hall. destruct Hall as [Hd _].
    destruct (Ascii.eqb c quote); simpl; [reflexivity|].
    apply negb_true_iff in Hd.
    change (Ascii.eqb quote quote) with true.
    now rewrite Hd.
Qed.

(** C2. A text that opens with a quoted span without a quote inside is not
    lexed as a [string] token unless the span has exactly one character:
    for the empty span and for spans of two or more characters [scan] raises
    the invalid-token exception. *)
Theorem scan_quoted_span_not_one_char
  (span rest : string) (p : nat) (tk : option token_key) (w : string) :
  all_chars (fun c => negb (Ascii.eqb c quote)) span = true ->
  String.length span <> 1 ->
  first_match TOKENS (quoted span ++ rest) = None
  /\ Parser.scan (Parser.mk_state (quoted span ++ rest) p tk w)
     = Raise (InvalidToken p (take 20 (quoted span ++ rest))).
Proof.
  intros Hall Hlen.
  assert (Hnone : first_match TOKENS (quoted span ++ rest) = None).
  { change (quoted span ++ rest)
      with (String quote ((span ++ String quote "") ++ rest)).
    rewrite first_match_quote.
    change (String quote ((span ++ String quote "") ++ rest))
      with (quoted span ++ rest).
    now rewrite re_string_quoted_other. }
  split; [assumption|].
  unfold Parser.scan. cbn [Parser.s Parser.pos].
  change (take_while is_space (quoted span ++ rest)) with EmptyString.
  cbn [String.length drop].
  rewrite Hnone. reflexivity.
Qed.

Lemma scan_quoted_span_not_one_char_witness :
  first_match TOKENS (quoted "ab" ++ ".") = None
  /\ Parser.scan (Parser.mk_state (quoted "ab" ++ ".") 1 None "")
     = Raise (InvalidToken 1 (take 20 (quoted "ab" ++ "."))).
Proof.
  apply (scan_quoted_span_not_one_char "ab" "." 1 None "").
  - reflexivity.
  - simpl. lia.
Defined.

(** ** [scan] on white space, on a dot and on a character of no pattern *)

Lemma scan_dot (ws r : string) (p : nat) (tk : option token_key)
  (w : string) :
  all_chars is_space ws = true ->
  Parser.scan (Parser.mk_state (ws ++ String "." r) p tk w)
  = Ok (Parser.mk_state r (p + 1) (Some KDot) ".").
Proof.
  intros Hws. unfold Parser.scan. cbn [Parser.s Parser.pos Parser.word].
  rewrite take_while_app_stop by (assumption || reflexivity).
  rewrite drop_length_app. reflexivity.
Qed.

Lemma scan_end (ws : string) (p : nat) (tk : option token_key) (w : string) :
  all_chars is_space ws = true ->
  Parser.scan (Parser.mk_state ws p tk w)
  = Ok (Parser.mk_state EmptyString p None w).
Proof.
  intros Hws. unfold Parser.scan. cbn [Parser.s Parser.pos Parser.word].
  rewrite take_while_all by assumption.
  now rewrite drop_length_all.
Qed.

Lemma first_match_tilde (r : string) :
  first_match TOKENS (String "~" r) = None.
Proof.
  now destruct r as [|a [|b r]].
Qed.

Lemma scan_tilde (ws r : string) (p : nat) (tk : option token_key)
  (w : string) :
  all_chars is_space ws = true ->
  Parser.scan (Parser.mk_state (ws ++ String "~" r) p tk w)
  = Raise (InvalidToken p (take 20 (String "~" r))).
Proof.
  intros Hws. unfold Parser.scan. cbn [Parser.s Parser.pos Parser.word].
  rewrite take_while_app_stop by (assumption || reflexivity).
  rewrite drop_length_app. now rewrite first_match_tilde.
Qed.

(** The unescaping call of [parse_expr] replaces a quote by a quote. *)
Lemma replace_quote_by_quote (s : string) :
  replace_char quote (String quote "") s = s.
Proof.
  induction s as [|c s IH]; simpl; [reflexivity|].
  destruct (Ascii.eqb c quote) eqn:E.
  - apply Ascii.eqb_eq in E. subst c. now rewrite IH.
  - now rewrite IH.
Qed.

(** The literal that [parse_expr] builds from a [string] token is one
    character, and that character is no quote. *)
Lemma string_token_literal (s w : string) :
  re_string s = Some w ->
  exists c,
    Ascii.eqb c quote = false
    /\ replace_char quote (String quote "")
         (take (String.length w - 2) (drop 1 w)) = String c "".
Proof.
  intros H. apply re_string_spec in H.
  destruct H as [c [rest [Hc [_ ->]]]].
  exists c. split; [assumption|].
  now rewrite replace_quote_by_quote.
Qed.

(** ** Every token has a character, and [scan] leaves less to read *)

Lemma length_drop (n : nat) :
  forall s : string, String.length (drop n s) = String.length s - n.
Proof.
  induction n as [|n IH]; intros [|c s]; simpl; auto.
Qed.

Lemma re_char_nonempty (ch : ascii) (s w : string) :
  re_char ch s = Some w -> 1 <= String.length w.
Proof.
  destruct s as [|c s]; simpl; [discriminate|].
  destruct (Ascii.eqb c ch); [|discriminate].
  intros H. injection H as <-. simpl. lia.
Qed.

Lemma re_ident_nonempty (s w : string) :
  re_ident s = Some w -> 1 <= String.length w.
Proof.
  destruct s as [|c s]; simpl; [discriminate|].
  destruct (ident_start c); [|discriminate].
  intros H. injection H as <-. simpl. lia.
Qed.

Lemma re_prefixed_nonempty (ch : ascii) (s w : string) :
  re_prefixed ch s = Some w -> 1 <= String.length w.
Proof.
  destruct s as [|c s]; simpl; [discriminate|].
  destruct (Ascii.eqb c ch); [|discriminate].
  destruct (re_ident s); simpl; [|discriminate].
  intros H. injection H as <-. simpl. lia.
Qed.

Lemma re_digits_nonempty (s w : string) :
  re_digits s = Some w -> 1 <= String.length w.
Proof.
  unfold re_digits. destruct (take_while is_digit s); [discriminate|].
  intros H. injection H as <-. simpl. lia.
Qed.

Lemma re_signed_digits_nonempty (s w : string) :
  re_signed_digits s = Some w -> 1 <= String.length w.
Proof.
  destruct s as [|c s]; simpl; [discriminate|].
  destruct (Ascii.eqb c "-" || Ascii.eqb c "+").
  - destruct (re_digits s); simpl; [|discriminate].
    intros H. injection H as <-. simpl. lia.
  - apply re_digits_nonempty.
Qed.

Lemma re_number_nonempty (s w : string) :
  re_number s = Some w -> 1 <= String.length w.
Proof.
  unfold re_number.
  destruct (re_signed_digits s) as [int_part|] eqn:E; [|discriminate].
  intros H. injection H as <-.
  apply re_signed_digits_nonempty in E.
  rewrite length_app. lia.
Qed.

Lemma re_string_nonempty (s w : string) :
  re_string s = Some w -> 1 <= String.length w.
Proof.
  intros H. apply re_string_spec in H.
  destruct H as [c [rest [_ [_ ->]]]]. simpl. lia.
Qed.

Lemma first_match_nonempty (s w : string) (key : token_key) :
  first_match TOKENS s = Some (key, w) -> 1 <= String.length w.
Proof.
  unfold TOKENS, first_match.
  destruct (re_char "(" s) eqn:E1;
    [intros H; injection H as _ <-; eapply re_char_nonempty; eassumption|].
  destruct (re_char ")" s) eqn:E2;
    [intros H; injection H as _ <-; eapply re_char_nonempty; eassumption|].
  destruct (re_char "." s) eqn:E3;
    [intros H; injection H as _ <-; eapply re_char_nonempty; eassumption|].
  destruct (re_prefixed ":" s) eqn:E4;
    [intros H; injection H as _ <-; eapply re_prefixed_nonempty; eassumption|].
  destruct (re_prefixed "@" s) eqn:E5;
    [intros H; injection H as _ <-; eapply re_prefixed_nonempty; eassumption|].
  destruct (re_number s) eqn:E6;
    [intros H; injection H as _ <-; eapply re_number_nonempty; eassumption|].
  destruct (re_string s) eqn:E7;
    [intros H; injection H as _ <-; eapply re_string_nonempty; eassumption|].
  destruct (re_ident s) eqn:E8;
    [intros H; injection H as _ <-; eapply re_ident_nonempty; eassumption|].
  discriminate.
Qed.

(** After [scan], the token in hand and the text left take no more than the
    text that was left before: the token that was in hand is spent. *)
Lemma scan_pending (st st' : Parser.state) :
  Parser.scan st = Ok st' -> pending st' <= String.length (Parser.s st).
Proof.
  unfold Parser.scan, pending.
  remember (drop (String.length (take_while is_space (Parser.s st)))
              (Parser.s st)) as s1 eqn:Es1.
  assert (Hs1 : String.length s1 <= String.length (Parser.s st))
    by (subst s1; rewrite length_drop; lia).
  clear Es1. destruct s1 as [|c rest].
  - intros H. injection H as <-. simpl. lia.
  - destruct (first_match TOKENS (String c rest)) as [[key w]|] eqn:Em;
      [|discriminate].
    intros H. injection H as <-.
    apply first_match_nonempty in Em.
    cbn [Parser.s Parser.token]. rewrite length_drop.
    cbn [String.length] in Hs1 |- *. lia.
Qed.

Lemma scan_pending_lt (st st' : Parser.state) :
  Parser.token st <> None ->
  Parser.scan st = Ok st' -> pending st' < pending st.
Proof.
  intros Htok H. apply scan_pending in H.
  unfold pending at 2. destruct (Parser.token st); [lia | congruence].
Qed.

(** The offset after [scan] is the offset before plus the length of the
    token read, whatever white space was skipped. *)
Lemma scan_pos (st st' : Parser.state) :
  Parser.scan st = Ok st' ->
  Parser.pos st'
  = Parser.pos st
    + match Parser.token st' with
      | Some _ => String.length (Parser.word st')
      | None => 0
      end.
Proof.
  unfold Parser.scan.
  destruct (drop _ (Parser.s st)).
  - intros H. injection H as <-. simpl. lia.
  - destruct (first_match TOKENS _) as [[key w]|]; [|discriminate].
    intros H. injection H as <-. reflexivity.
Qed.

(** * Properties of the parser *)

Section ParserFacts.

Variable py_float : string -> pyfloat.

(** ** The bound of [parse] is never reached *)

Lemma settled_weaken {A} (b b' : nat) (r : result (A * Parser.state)) :
  b <= b' -> settled b r -> settled b' r.
Proof.
  destruct r as [[a st']| |]; simpl; auto. lia.
Qed.

Lemma token_is_true (st : Parser.state) (key : token_key) :
  Parser.token_is st key = true -> Parser.token st = Some key.
Proof.
  unfold Parser.token_is. destruct (Parser.token st) as [k|]; [|discriminate].
  destruct k, key; simpl; congruence.
Qed.

Lemma pending_token (st : Parser.state) (key : token_key) :
  Parser.token st = Some key -> 1 <= pending st.
Proof.
  unfold pending. intros ->. lia.
Qed.

(** One atom that is a single token: [scan], then the loop goes on. *)
Lemma settled_after_scan (st : Parser.state)
  (k : Parser.state -> result (node * Parser.state)) :
  Parser.token st <> None ->
  (forall st1, pending st1 < pending st -> settled (pending st1) (k st1)) ->
  settled (pending st) (st1 <-- Parser.scan st ;; k st1).
Proof.
  intros Htok Hk.
  destruct (Parser.scan st) as [st1| |] eqn:Hs; simpl; auto.
  - pose proof (scan_pending_lt st st1 Htok Hs) as Hlt.
    eapply settled_weaken; [|apply Hk; assumption]. lia.
  - unfold Parser.scan in Hs.
    destruct (drop _ (Parser.s st)); [discriminate|].
    destruct (first_match TOKENS _) as [[? ?]|]; discriminate.
Qed.

Lemma parse_loops_settle (fuel : nat) :
  (forall acc st,
      3 * pending st + 1 <= fuel ->
      settled (pending st) (Parser.parse_expr_loop py_float fuel acc st))
  /\ (forall ll st,
        (if Parser.token_is st KLambda then 3 * pending st
         else 3 * pending st + 2) <= fuel ->
        settled (if Parser.token_is st KLambda then pending st - 1
                 else pending st)
                (Parser.parse_lambda_loop py_float fuel ll st)).
Proof.
  induction fuel as [|fuel [IHe IHl]].
  - split.
    + intros acc st H. lia.
    + intros ll st H.
      destruct (Parser.token_is st KLambda) eqn:E; [|lia].
      apply token_is_true, pending_token in E. lia.
  - split.
    + intros acc st Hfuel. cbn [Parser.parse_expr_loop].
      destruct (Parser.token st) as [[]|] eqn:Htok;
        try (simpl; lia);
        try (apply settled_after_scan; [congruence|];
             intros st1 Hlt; apply IHe; lia).
      * (* an opening parenthesis *)
        apply settled_after_scan; [congruence|].
        intros st1 Hlt.
        pose proof (IHe NNone st1 ltac:(lia)) as H1.
        destruct (Parser.parse_expr_loop py_float fuel NNone st1)
          as [[e st2]| |]; simpl in H1 |- *; auto.
        destruct (Parser.token_is st2 KRpar) eqn:Erp; simpl; [|exact I].
        apply token_is_true in Erp.
        eapply settled_weaken;
          [|apply settled_after_scan; [congruence|];
            intros st3 Hlt3; apply IHe; lia].
        lia.
      * (* a lambda token *)
        pose proof (pending_token st _ Htok) as Hpos.
        assert (Hlam : Parser.token_is st KLambda = true)
          by (unfold Parser.token_is; now rewrite Htok).
        pose proof (IHl [] st) as H1. rewrite Hlam in H1.
        specialize (H1 ltac:(lia)).
        destruct (Parser.parse_lambda_loop py_float fuel [] st)
          as [[e st1]| |]; simpl in H1 |- *; auto.
        eapply settled_weaken; [|apply IHe; lia]. lia.
    + intros ll st Hfuel. cbn [Parser.parse_lambda_loop].
      destruct (Parser.token_is st KLambda) eqn:Elam.
      * pose proof (token_is_true _ _ Elam) as Htok.
        pose proof (pending_token st _ Htok) as Hpos.
        destruct (Parser.scan st) as [st1| |] eqn:Hs; simpl; auto.
        -- pose proof (scan_pending_lt st st1 ltac:(congruence) Hs) as Hlt.
           pose proof (IHl (ll ++ [drop 1 (Parser.word st)])%list st1) as H1.
           destruct (Parser.token_is st1 KLambda);
             (eapply settled_weaken; [|apply H1; lia]); lia.
        -- unfold Parser.scan in Hs.
           destruct (drop _ (Parser.s st)); [discriminate|].
           destruct (first_match TOKENS _) as [[? ?]|]; discriminate.
      * pose proof (IHe NNone st ltac:(lia)) as H1.
        destruct (Parser.parse_expr_loop py_float fuel NNone st)
          as [[e st1]| |]; simpl in H1 |- *; auto.
Qed.

Lemma parse_expr_settles (fuel : nat) (st : Parser.state) :
  3 * pending st + 1 <= fuel ->
  settled (pending st) (Parser.parse_expr py_float fuel st).
Proof.
  apply (proj1 (parse_loops_settle fuel)).
Qed.

Lemma scan_not_out_of_fuel (st : Parser.state) :
  Parser.scan st <> OutOfFuel.
Proof.
  unfold Parser.scan.
  destruct (drop _ (Parser.s st)); [discriminate|].
  destruct (first_match TOKENS _) as [[? ?]|]; discriminate.
Qed.

Lemma parse_statement_settles (fuel : nat) (st : Parser.state) :
  3 * pending st + 1 <= fuel ->
  settled (pending st) (Parser.parse_statement py_float fuel st).
Proof.
  intros Hfuel. unfold Parser.parse_statement.
  destruct (Parser.token_is st KLet) eqn:Elet.
  - apply token_is_true in Elet.
    destruct (Parser.scan st) as [st1| |] eqn:Hs1; simpl; auto;
      [|now apply scan_not_out_of_fuel in Hs1].
    pose proof (scan_pending_lt st st1 ltac:(congruence) Hs1) as Hlt1.
    destruct (negb (Parser.token_is st1 KVar)
              || negb (String.eqb (Parser.word st1) "=")) eqn:Eeq;
      simpl; auto.
    apply orb_false_iff in Eeq. destruct Eeq as [Evar _].
    apply negb_false_iff, token_is_true in Evar.
    destruct (Parser.scan st1) as [st2| |] eqn:Hs2; simpl; auto;
      [|now apply scan_not_out_of_fuel in Hs2].
    pose proof (scan_pending_lt st1 st2 ltac:(congruence) Hs2) as Hlt2.
    pose proof (parse_expr_settles fuel st2 ltac:(lia)) as H.
    destruct (Parser.parse_expr py_float fuel st2) as [[e st3]| |];
      simpl in H |- *; auto. lia.
  - pose proof (parse_expr_settles fuel st Hfuel) as H.
    destruct (Parser.parse_expr py_float fuel st) as [[e st1]| |];
      simpl in H |- *; auto.
Qed.

Lemma parse_statements_settles (fuel : nat) :
  forall (res : list statement) (st : Parser.state),
    3 * pending st + 2 <= fuel ->
    settled (pending st) (Parser.parse_statements py_float fuel res st).
Proof.
  induction fuel as [|fuel IH]; intros res st Hfuel; [lia|].
  cbn [Parser.parse_statements].
  destruct (Parser.token st) as [key|] eqn:Htok; [|simpl; lia].
  pose proof (parse_statement_settles fuel st ltac:(lia)) as H.
  destruct (Parser.parse_statement py_float fuel st) as [[item st1]| |];
    simpl in H |- *; auto.
  destruct (Parser.token_is st1 KDot) eqn:Edot; simpl; auto.
  apply token_is_true in Edot.
  destruct (Parser.scan st1) as [st2| |] eqn:Hs; simpl; auto;
    [|now apply scan_not_out_of_fuel in Hs].
  pose proof (scan_pending_lt st1 st2 ltac:(congruence) Hs) as Hlt.
  eapply settled_weaken; [|apply IH; lia]. lia.
Qed.

(** [parse] ends on every text, with a list of statements or with one of
    the two exceptions. *)
Theorem parse_total (text : string) :
  Parser.parse py_float text <> OutOfFuel.
Proof.
  unfold Parser.parse, Parser.parse_fuel.
  destruct (Parser.scan (Parser.mk_state text 1 None EmptyString))
    as [st| |] eqn:Hs; simpl; try discriminate;
    [|now apply scan_not_out_of_fuel in Hs].
  apply scan_pending in Hs. cbn [Parser.s] in Hs.
  pose proof (parse_statements_settles (3 * String.length text + 2) [] st
                ltac:(lia)) as H.
  destruct (Parser.parse_statements py_float _ [] st) as [[res st1]| |];
    simpl in H |- *; try discriminate; [|contradiction].
  destruct (Parser.token st1); discriminate.
Qed.

(** ** A larger bound changes nothing *)

Lemma rbind_stable {A B} (c c' : result A) (k k' : A -> result B) :
  (c <> OutOfFuel -> c' = c) ->
  (forall a, k a <> OutOfFuel -> k' a = k a) ->
  rbind c k <> OutOfFuel -> rbind c' k' = rbind c k.
Proof.
  intros Hc Hk Hne.
  destruct c as [a| |]; simpl in *.
  - rewrite Hc by discriminate. simpl. auto.
  - now rewrite Hc by discriminate.
  - congruence.
Qed.

Lemma parse_loops_stable (fuel : nat) :
  (forall fuel' acc st,
      fuel <= fuel' ->
      Parser.parse_expr_loop py_float fuel acc st <> OutOfFuel ->
      Parser.parse_expr_loop py_float fuel' acc st
      = Parser.parse_expr_loop py_float fuel acc st)
  /\ (forall fuel' ll st,
        fuel <= fuel' ->
        Parser.parse_lambda_loop py_float fuel ll st <> OutOfFuel ->
        Parser.parse_lambda_loop py_float fuel' ll st
        = Parser.parse_lambda_loop py_float fuel ll st).
Proof.
  induction fuel as [|fuel [IHe IHl]].
  - split; intros; simpl in *; congruence.
  - split.
    + intros [|fuel'] acc st Hle; [lia|].
      cbn [Parser.parse_expr_loop].
      destruct (Parser.token st) as [[]|]; try reflexivity;
        try (apply rbind_stable; [auto|]; intros st1 H1; apply IHe;
             [lia | assumption]).
      * apply rbind_stable; [auto|]. intros st1.
        apply rbind_stable; [intros; apply IHe; [lia | assumption]|].
        intros [e st2].
        destruct (negb (Parser.token_is st2 KRpar)); [reflexivity|].
        apply rbind_stable; [auto|].
        intros st3 H3. apply IHe; [lia | assumption].
      * apply rbind_stable; [intros; apply IHl; [lia | assumption]|].
        intros [e st1] H1. apply IHe; [lia | assumption].
    + intros [|fuel'] ll st Hle; [lia|].
      cbn [Parser.parse_lambda_loop].
      destruct (Parser.token_is st KLambda).
      * apply rbind_stable; [auto|].
        intros st1 H1. apply IHl; [lia | assumption].
      * apply rbind_stable; [intros; apply IHe; [lia | assumption]|].
        now intros [e st1].
Qed.

Lemma parse_statement_stable (fuel fuel' : nat) (st : Parser.state) :
  fuel <= fuel' ->
  Parser.parse_statement py_float fuel st <> OutOfFuel ->
  Parser.parse_statement py_float fuel' st
  = Parser.parse_statement py_float fuel st.
Proof.
  intros Hle. unfold Parser.parse_statement, Parser.parse_expr.
  destruct (Parser.token_is st KLet).
  - apply rbind_stable; [auto|]. intros st1.
    destruct (negb (Parser.token_is st1 KVar)
              || negb (String.eqb (Parser.word st1) "=")); [reflexivity|].
    apply rbind_stable; [auto|]. intros st2.
    apply rbind_stable;
      [intros; now apply (proj1 (parse_loops_stable fuel))|].
    now intros [e st3].
  - apply rbind_stable;
      [intros; now apply (proj1 (parse_loops_stable fuel))|].
    now intros [e st1].
Qed.

Lemma parse_statements_stable (fuel : nat) :
  forall fuel' res st,
    fuel <= fuel' ->
    Parser.parse_statements py_float fuel res st <> OutOfFuel ->
    Parser.parse_statements py_float fuel' res st
    = Parser.parse_statements py_float fuel res st.
Proof.
  induction fuel as [|fuel IH]; intros [|fuel'] res st Hle;
    simpl; try congruence; try lia.
  destruct (Parser.token st); [|reflexivity].
  apply rbind_stable;
    [intros; apply parse_statement_stable; [lia | assumption]|].
  intros [item st1].
  destruct (negb (Parser.token_is st1 KDot)); [reflexivity|].
  apply rbind_stable; [auto|].
  intros st2 H2. apply IH; [lia | assumption].
Qed.

(** Any bound from that of [parse] upwards gives what [parse] gives. *)
Theorem parse_fuel_enough (fuel : nat) (text : string) :
  3 * String.length text + 2 <= fuel ->
  Parser.parse_fuel py_float fuel text = Parser.parse py_float text.
Proof.
  intros Hle. pose proof (parse_total text) as Htot.
  unfold Parser.parse, Parser.parse_fuel in *.
  revert Htot. apply rbind_stable; [auto|]. intros st.
  apply rbind_stable; [intros; now apply parse_statements_stable|].
  now intros [res st1].
Qed.

(** C6. The offset of an exception counts the characters of the tokens
    read so far and none of the white space skipped: a character of no
    pattern after any run [ws] of white space is reported at offset 1, and
    the unterminated statements [a b] and [ab] are both reported at
    offset 3. *)
Theorem error_offset_ignores_white_space (ws rest : string) :
  all_chars is_space ws = true ->
  Parser.parse py_float (ws ++ String "~" rest)
  = Raise (InvalidToken 1 (take 20 (String "~" rest)))
  /\ Parser.parse py_float "a b" = Raise (SyntaxError 3 "'.' expected")
  /\ Parser.parse py_float "ab" = Raise (SyntaxError 3 "'.' expected").
Proof.
  intros Hws. repeat split.
  unfold Parser.parse, Parser.parse_fuel.
  now rewrite scan_tilde.
Qed.

(** C8. The text of the doubled-quote encoding of a, quote, b is lexed as
    two [string] tokens and parsed as the application of the literal a to
    the literal b, which is rendered as two quoted literals; and the
    rendering of a literal that does hold a quote is not lexed at all. *)
Theorem doubled_quote_is_two_literals (py_str_float : pyfloat -> string) :
  Parser.parse py_float (quoted "a" ++ quoted "b" ++ ".")
  = Ok [STerm (NApply (NVal (VStr "a")) (NVal (VStr "b")))]
  /\ term_of_node (NApply (NVal (VStr "a")) (NVal (VStr "b")))
     = Some (Apply (Val (VStr "a")) (Val (VStr "b")))
  /\ repr py_str_float (Apply (Val (VStr "a")) (Val (VStr "b")))
     = quoted "a" ++ " " ++ quoted "b"
  /\ repr py_str_float (Val (VStr ("a" ++ String quote "b")))
     = quoted ("a" ++ String backslash (String quote "b"))
  /\ Parser.parse py_float (repr py_str_float (Val (VStr ("a" ++ String quote "b"))) ++ ".")
     = Raise (InvalidToken 1
                (quoted ("a" ++ String backslash (String quote "b")) ++ ".")).
Proof.
  repeat split.
Qed.

(** An empty statement: at a dot, [parse_statements] lists a [None]
    expression, reads past the dot and goes on. *)
Lemma parse_statements_at_dot (fuel : nat) (res : list statement)
  (st : Parser.state) :
  Parser.token st = Some KDot ->
  Parser.parse_statements py_float (S (S fuel)) res st
  = (st2 <-- Parser.scan st ;;
     Parser.parse_statements py_float (S fuel) (res ++ [STerm NNone])%list st2).
Proof.
  intros Htok.
  cbn [Parser.parse_statements]. rewrite Htok.
  unfold Parser.parse_statement, Parser.parse_expr, Parser.token_is.
  rewrite Htok. cbn [token_key_eqb Parser.parse_expr_loop].
  rewrite Htok. cbn [rbind negb]. unfold Parser.token_is.
  rewrite Htok. reflexivity.
Qed.

Lemma parse_statements_dotted (wss : list string) :
  forall (trail : string) (fuel : nat) (res : list statement) (p : nat)
         (w : string),
    Forall (fun ws => all_chars is_space ws = true) wss ->
    all_chars is_space trail = true ->
    List.length wss + 2 <= fuel ->
    exists st',
      Parser.parse_statements py_float fuel res
        (Parser.mk_state (dotted wss ++ trail) p (Some KDot) w)
      = Ok ((res ++ repeat (STerm NNone) (S (List.length wss)))%list, st')
      /\ Parser.token st' = None.
Proof.
  induction wss as [|ws wss IH]; intros trail fuel res p w Hall Htrail Hfuel.
  - destruct fuel as [|[|fuel]]; simpl in Hfuel; try lia.
    rewrite parse_statements_at_dot by reflexivity.
    simpl dotted. simpl append.
    rewrite scan_end by assumption. cbn [rbind Parser.parse_statements].
    eexists. split; reflexivity.
  - destruct fuel as [|[|fuel]]; simpl in Hfuel; try lia.
    rewrite parse_statements_at_dot by reflexivity.
    inversion Hall as [|? ? Hws Hrest]; subst.
    simpl dotted.
    rewrite app_String_assoc.
    rewrite scan_dot by assumption. cbn [rbind].
    destruct (IH trail (S fuel) (res ++ [STerm NNone])%list (p + 1) "."
                Hrest Htrail ltac:(lia)) as [st' [Hst' Htok]].
    exists st'. split; [|assumption].
    rewrite Hst'. rewrite <- app_assoc. reflexivity.
Qed.

(** C10. A statement with no atom before its dot is parsed without an
    error into the expression [None]: at a dot [parse_statements] lists a
    [None] expression and goes on after the dot; a binding with nothing
    after its [=] is listed with the expression [None]; and a text of dots,
    with white space anywhere, parses to one [None] for each dot. *)
Theorem parse_empty_statements (wss : list string) (ws trail : string) :
  Forall (fun ws => all_chars is_space ws = true) wss ->
  all_chars is_space ws = true ->
  all_chars is_space trail = true ->
  Parser.parse py_float "." = Ok [STerm NNone]
  /\ Parser.parse py_float ":x = ." = Ok [SLet "x" NNone]
  /\ Parser.parse py_float (dotted (ws :: wss) ++ trail)
     = Ok (repeat (STerm NNone) (S (List.length wss)))
  /\ forall fuel res st,
       Parser.token st = Some KDot ->
       Parser.parse_statements py_float (S (S fuel)) res st
       = (st2 <-- Parser.scan st ;;
          Parser.parse_statements py_float (S fuel) (res ++ [STerm NNone])%list st2).
Proof.
  intros Hall Hws Htrail. repeat split.
  - unfold Parser.parse, Parser.parse_fuel.
    simpl dotted.
    rewrite app_String_assoc.
    rewrite scan_dot by assumption. cbn [rbind].
    destruct (parse_statements_dotted wss trail
                (3 * String.length (ws ++ String "." (dotted wss ++ trail)) + 2)
                [] (1 + 1) "." Hall Htrail) as [st' [Hst' Htok]].
    + rewrite length_app. cbn [String.length]. rewrite length_app.
      pose proof (length_dotted wss). lia.
    + rewrite Hst'. cbn [rbind]. now rewrite Htok.
  - intros fuel res st. apply parse_statements_at_dot.
Qed.

End ParserFacts.

Lemma error_offset_ignores_white_space_witness :
  Parser.parse (fun _ => FZero false) (" " ++ String "~" "")
  = Raise (InvalidToken 1 (take 20 (String "~" "")))
  /\ Parser.parse (fun _ => FZero false) "a b"
     = Raise (SyntaxError 3 "'.' expected")
  /\ Parser.parse (fun _ => FZero false) "ab"
     = Raise (SyntaxError 3 "'.' expected").
Proof.
  apply (error_offset_ignores_white_space (fun _ => FZero false) " " "").
  reflexivity.
Defined.

Lemma parse_empty_statements_witness :
  Parser.parse (fun _ => FZero false) "." = Ok [STerm NNone]
  /\ Parser.parse (fun _ => FZero false) ":x = ." = Ok [SLet "x" NNone]
  /\ Parser.parse (fun _ => FZero false) (dotted [" "; ""; "  "] ++ " ")
     = Ok (repeat (STerm NNone) 3)
  /\ forall fuel res st,
       Parser.token st = Some KDot ->
       Parser.parse_statements (fun _ => FZero false) (S (S fuel)) res st
       = (st2 <-- Parser.scan st ;;
          Parser.parse_statements (fun _ => FZero false) (S fuel)
            (res ++ [STerm NNone])%list st2).
Proof.
  apply (parse_empty_statements (fun _ => FZero false) [""; "  "] " " " ").
  - repeat constructor.
  - reflexivity.
  - reflexivity.
Defined.

(** * Further properties of the term engine *)

Lemma term_eq_refl_full (t : term) (n : nat) :
  exists n', term_eq t t n = (true, n').
Proof.
  pose proof (term_eq_refl t n) as H.
  destruct (term_eq t t n) as [r n']. simpl in H. subst r. now exists n'.
Qed.

Lemma eq_fuel_counter (f : nat) :
  forall (a b : term) (n : nat), n <= snd (eq_fuel f a b n).
Proof.
  induction f as [|f IH]; intros a b n; [simpl; lia|].
  destruct a, b; simpl; try lia.
  - unfold bind, next_gen.
    specialize (IH (subst a var (Var (fresh_name n)))
                   (subst b var0 (Var (fresh_name n))) (S n)). lia.
  - unfold bind. pose proof (IH a1 b1 n) as H1.
    destruct (eq_fuel f a1 b1 n) as [[|] n1]; simpl in *; [|lia].
    pose proof (IH a2 b2 n1). lia.
Qed.

Lemma beta_step_Apply_other (f e : term) (n : nat) :
  (forall v b, f <> Lambda v b) ->
  beta_step (Apply f e) n
  = (new_fun <- beta_step f ;;
     same <- term_eq f new_fun ;;
     if same then new_expr <- beta_step e ;; ret (Apply new_fun new_expr)
     else ret (Apply new_fun (copy e))) n.
Proof.
  intros H. destruct f as [v b| | |]; [now destruct (H v b)| | |];
    reflexivity.
Qed.

Lemma beta_step_no_redex (t : term) :
  forall n, has_redex t = false -> exists n', beta_step t n = (t, n').
Proof.
  induction t as [v b IH|f IHf e IHe|c|x]; intros n Hn.
  - simpl in Hn. destruct (IH n Hn) as [n' H].
    exists n'. simpl. unfold bind. now rewrite H.
  - assert (Hf : has_redex f = false /\ has_redex e = false
                 /\ forall v b, f <> Lambda v b).
    { simpl in Hn. destruct f; try discriminate;
        apply orb_false_iff in Hn; destruct Hn; repeat split;
        try assumption; intros; discriminate. }
    destruct Hf as [Hf [He Hlam]].
    destruct (IHf n Hf) as [n1 H1].
    destruct (term_eq_refl_full f n1) as [n2 H2].
    destruct (IHe n2 He) as [n3 H3].
    exists n3.
    rewrite beta_step_Apply_other by assumption.
    unfold bind. rewrite H1, H2, H3. reflexivity.
  - exists n. reflexivity.
  - exists n. reflexivity.
Qed.

Lemma names_subst_var (t : term) (x y z : string) :
  In z (names (subst t x (Var y))) -> In z (names t) \/ z = y.
Proof.
  induction t as [w b IH|f IHf e IHe|c|u]; simpl.
  - destruct (String.eqb x w); simpl; [tauto|].
    intros [H|H]; [tauto|]. apply IH in H. tauto.
  - rewrite !in_app_iff. tauto.
  - tauto.
  - destruct (String.eqb u x); simpl; intros [H|[]]; auto.
Qed.

Lemma aeq_same (c : term) :
  forall (d : nat) (ea eb : renaming),
    (forall z, In z (names c) -> lookup ea z = lookup eb z) ->
    aeq d ea eb c c = true.
Proof.
  induction c as [w b IH|f IHf e IHe|v|u]; intros d ea eb H; simpl.
  - apply IH. intros z Hz. simpl.
    destruct (String.eqb z w); [reflexivity|]. apply H. simpl. auto.
  - rewrite IHf, IHe; auto; intros z Hz; apply H; simpl;
      apply in_or_app; auto.
  - apply value_eqb_refl.
  - rewrite (H u) by (simpl; auto).
    destruct (lookup eb u); [apply Nat.eqb_refl | apply String.eqb_refl].
Qed.

Lemma aeq_renamed (b : term) (x y : string) :
  forall (d : nat) (ea eb : renaming) (i : nat),
    ~ In y (names b) ->
    (forall z, In z (names b) -> z <> x -> lookup ea z = lookup eb z) ->
    lookup ea x = Some i -> lookup eb y = Some i ->
    aeq d ea eb b (subst b x (Var y)) = true.
Proof.
  induction b as [w c IH|f IHf e IHe|v|u]; intros d ea eb i Hy Hz Hx Hyy.
  - cbn [subst]. destruct (String.eqb x w) eqn:E.
    + apply String.eqb_eq in E. subst w.
      cbn [aeq]. apply aeq_same.
      intros z Hin. simpl. destruct (String.eqb z x) eqn:Ez; [reflexivity|].
      apply Hz; [simpl; auto|]. now apply String.eqb_neq.
    + cbn [aeq]. apply (IH (S d) _ _ i).
      * intros Hin. apply Hy. simpl. auto.
      * intros z Hin Hne. simpl.
        destruct (String.eqb z w); [reflexivity|].
        apply Hz; simpl; auto.
      * simpl. now rewrite E.
      * simpl. destruct (String.eqb y w) eqn:Ey; [|assumption].
        apply String.eqb_eq in Ey. subst w. exfalso. apply Hy. simpl. auto.
  - cbn [subst aeq]. simpl in Hy. rewrite in_app_iff in Hy.
    rewrite (IHf d ea eb i), (IHe d ea eb i); auto;
      intros z Hin; apply Hz; simpl; apply in_or_app; auto.
  - simpl. apply value_eqb_refl.
  - cbn [subst]. destruct (String.eqb u x) eqn:E.
    + apply String.eqb_eq in E. subst u. simpl.
      rewrite Hx, Hyy. apply Nat.eqb_refl.
    + simpl. rewrite (Hz u) by (simpl; auto; now apply String.eqb_neq).
      destruct (lookup eb u); [apply Nat.eqb_refl | apply String.eqb_refl].
Qed.

Lemma free_vars_subst (t : term) (v : string) (e : term) (z : string) :
  In z (free_vars (subst t v e)) ->
  (In z (free_vars t) /\ z <> v) \/ In z (free_vars e).
Proof.
  induction t as [w b IH|f IHf a IHa|c|x]; simpl.
  - destruct (String.eqb v w) eqn:E; simpl; rewrite !filter_In.
    + apply String.eqb_eq in E. subst w.
      intros [Hin Hne]. left. repeat split; try assumption.
      apply negb_true_iff, String.eqb_neq in Hne. assumption.
    + intros [Hin Hne]. apply IH in Hin. tauto.
  - rewrite !in_app_iff. tauto.
  - tauto.
  - destruct (String.eqb x v) eqn:E.
    + rewrite copy_id. auto.
    + simpl. intros [H|[]]. subst z. left. split; [auto|].
      now apply String.eqb_neq.
Qed.

Lemma filter_idem {A} (f : A -> bool) (l : list A) :
  filter f (filter f l) = filter f l.
Proof.
  induction l as [|y l IH]; simpl; [reflexivity|].
  destruct (f y) eqn:E; simpl; [|assumption]. now rewrite E, IH.
Qed.

Lemma filter_swap {A} (f g : A -> bool) (l : list A) :
  filter f (filter g l) = filter g (filter f l).
Proof.
  induction l as [|y l IH]; simpl; [reflexivity|].
  destruct (f y) eqn:Ef, (g y) eqn:Eg; simpl; rewrite ?Ef, ?Eg;
    now rewrite ?IH.
Qed.

Lemma free_vars_subst_closed (t : term) (v : string) (e : term) :
  free_vars e = [] ->
  free_vars (subst t v e)
  = filter (fun x => negb (String.eqb x v)) (free_vars t).
Proof.
  intros He. induction t as [w b IH|f IHf a IHa|c|x]; cbn [subst free_vars].
  - destruct (String.eqb v w) eqn:E; cbn [free_vars].
    + apply String.eqb_eq in E. subst w. now rewrite filter_idem.
    + rewrite IH. apply filter_swap.
  - now rewrite filter_app, IHf, IHa.
  - reflexivity.
  - destruct (String.eqb x v) eqn:E; simpl; rewrite E; simpl.
    + now rewrite copy_id.
    + reflexivity.
Qed.

Lemma beta_step_free_vars (t : term) :
  forall (n : nat) (z : string),
    In z (free_vars (fst (beta_step t n))) -> In z (free_vars t).
Proof.
  induction t as [v b IH|f IHf e IHe|c|x]; intros n z.
  - simpl. unfold bind. specialize (IH n).
    destruct (beta_step b n) as [b' n']. simpl in *.
    rewrite !filter_In. intros [H1 H2]. auto.
  - assert (Hcase : (exists v b, f = Lambda v b)
                    \/ (forall v b, f <> Lambda v b))
      by (destruct f; eauto; right; intros; discriminate).
    destruct Hcase as [[v [b ->]]|Hother].
    + simpl. intros H. apply free_vars_subst in H.
      rewrite in_app_iff, filter_In.
      destruct H as [[H1 H2]|H]; [left|now right].
      split; [assumption|]. now apply negb_true_iff, String.eqb_neq.
    + rewrite beta_step_Apply_other by assumption.
      unfold bind.
      destruct (beta_step f n) as [nf n1] eqn:E1.
      destruct (term_eq f nf n1) as [[|] n2].
      * destruct (beta_step e n2) as [ne n3] eqn:E2.
        cbn [fst ret free_vars]. rewrite !in_app_iff.
        intros [H|H].
        -- left. apply (IHf n). now rewrite E1.
        -- right. apply (IHe n2). now rewrite E2.
      * cbn [fst ret free_vars]. rewrite copy_id, !in_app_iff.
        intros [H|H]; [|now right].
        left. apply (IHf n). now rewrite E1.
  - simpl. auto.
  - simpl. auto.
Qed.

(** X1. [t == t] answers [True] for every term at every value of the
    counter, and never moves the counter back. *)
Theorem eq_is_reflexive (t : term) (n : nat) :
  exists n', term_eq t t n = (true, n') /\ n <= n'.
Proof.
  destruct (term_eq_refl_full t n) as [n' H]. exists n'.
  split; [assumption|].
  pose proof (eq_fuel_counter (size t) t t n) as Hc.
  unfold term_eq in H. rewrite H in Hc. assumption.
Qed.

(** X2. From one and the same value of the counter, [a == b] and [b == a]
    give the same answer and draw the same number of fresh names. *)
Theorem eq_is_symmetric_at_one_counter (a b : term) (n : nat) :
  term_eq a b n = term_eq b a n.
Proof.
  unfold term_eq.
  rewrite (eq_fuel_enough (size a) (Nat.max (size a) (size b)) a b n) by lia.
  rewrite eq_fuel_sym.
  apply eq_fuel_enough; lia.
Qed.

(** X3. When no name of [a] or [b] has the form of a fresh name
    ([x] and decimal digits), the answer of [a == b] does not depend on the
    counter, and [b == a] gives the same answer at any later or earlier
    value of it. *)
Theorem eq_ignores_counter (a b : term) (n m : nat) :
  user_names a -> user_names b ->
  fst (term_eq a b n) = fst (term_eq a b m)
  /\ fst (term_eq a b n) = fst (term_eq b a m).
Proof.
  intros Ua Ub. split.
  - now rewrite (term_eq_decides_aeq a b n), (term_eq_decides_aeq a b m).
  - now apply term_eq_sym_user_names.
Qed.

Lemma eq_ignores_counter_witness :
  fst (term_eq (Lambda "a" (Var "a")) (Lambda "b" (Var "b")) 1)
  = fst (term_eq (Lambda "a" (Var "a")) (Lambda "b" (Var "b")) 7)
  /\ fst (term_eq (Lambda "a" (Var "a")) (Lambda "b" (Var "b")) 1)
     = fst (term_eq (Lambda "b" (Var "b")) (Lambda "a" (Var "a")) 7).
Proof.
  apply (eq_ignores_counter (Lambda "a" (Var "a")) (Lambda "b" (Var "b")) 1 7).
  - intros k H. simpl in H. destruct H as [H|[H|[]]]; discriminate.
  - intros k H. simpl in H. destruct H as [H|[H|[]]]; discriminate.
Defined.

(** X4. Renaming the parameter: [Lambda x b] compares equal to
    [Lambda y b'], with [b'] the body [b] in which [y] is put for [x], when
    [y] occurs nowhere in [b] and no name involved has the form of a fresh
    name. *)
Theorem eq_renamed_parameter (x y : string) (b : term) (n : nat) :
  user_names (Lambda x b) ->
  (forall k, y <> fresh_name k) ->
  ~ In y (names b) ->
  fst (term_eq (Lambda x b) (Lambda y (subst b x (Var y))) n) = true.
Proof.
  intros Ub Hy Hin.
  rewrite term_eq_decides_aeq; [|assumption|].
  - cbn [aeq]. apply (aeq_renamed b x y 1 _ _ 0); try assumption.
    + intros z Hz Hne. simpl.
      destruct (String.eqb z x) eqn:Ex;
        [apply String.eqb_eq in Ex; contradiction|].
      destruct (String.eqb z y) eqn:Ey; [|reflexivity].
      apply String.eqb_eq in Ey. subst z. contradiction.
    + simpl. now rewrite String.eqb_refl.
    + simpl. now rewrite String.eqb_refl.
  - intros k Hk. simpl in Hk. destruct Hk as [Hk|Hk].
    + now apply (Hy k).
    + apply names_subst_var in Hk. destruct Hk as [Hk|Hk].
      * apply (Ub k). simpl. auto.
      * symmetry in Hk. now apply (Hy k).
Qed.

Lemma eq_renamed_parameter_witness :
  fst (term_eq (Lambda "a" (Apply (Var "f") (Var "a")))
               (Lambda "b" (subst (Apply (Var "f") (Var "a")) "a" (Var "b")))
               3) = true.
Proof.
  apply (eq_renamed_parameter "a" "b" (Apply (Var "f") (Var "a")) 3).
  - intros k H. simpl in H. destruct H as [H|[H|[H|[]]]]; discriminate.
  - intros k H. discriminate.
  - simpl. intros [H|[H|[]]]; discriminate.
Defined.

(** X5. A term without a redex is its own one-step image, and [beta_left]
    returns it after the first test, whatever the counter. *)
Theorem redex_free_term_is_returned (t : term) (fuel n : nat) :
  has_redex t = false ->
  fst (beta_step t n) = t
  /\ fst (beta_left (S fuel) t n) = Some t.
Proof.
  intros H. destruct (beta_step_no_redex t n H) as [n1 H1].
  split; [now rewrite H1|].
  unfold beta_left, bind. rewrite H1. simpl. unfold bind.
  destruct (term_eq_refl_full t n1) as [n2 H2]. now rewrite H2.
Qed.

Lemma redex_free_term_is_returned_witness :
  fst (beta_step (Lambda "x" (Apply (Var "f") (Var "x"))) 1)
  = Lambda "x" (Apply (Var "f") (Var "x"))
  /\ fst (beta_left 1 (Lambda "x" (Apply (Var "f") (Var "x"))) 1)
     = Some (Lambda "x" (Apply (Var "f") (Var "x"))).
Proof.
  apply (redex_free_term_is_returned
           (Lambda "x" (Apply (Var "f") (Var "x"))) 0 1).
  reflexivity.
Defined.

(** X6. The result of [beta_left] need not be free of redexes: the
    application of [@x x x] to itself, which the library binds to [OMEGA],
    is a redex that steps to itself, so the first test succeeds and
    [beta_left] returns it unchanged, for every name [x] and every
    counter. *)
Theorem self_apply_is_returned (py_float : string -> pyfloat)
  (x : string) (fuel n : nat) :
  (exists nd,
      Parser.parse py_float ":OMEGA = (@x x x)(@x x x)."
      = Ok [SLet "OMEGA" nd]
      /\ term_of_node nd = Some (self_apply "x"))
  /\ has_redex (self_apply x) = true
  /\ beta_step (self_apply x) n = (self_apply x, n)
  /\ fst (beta_left (S fuel) (self_apply x) n) = Some (self_apply x).
Proof.
  assert (Hs : beta_step (self_apply x) n = (self_apply x, n)).
  { unfold self_apply. rewrite beta_step_redex_eq. unfold ret.
    cbn [subst]. rewrite String.eqb_refl. cbn [copy]. reflexivity. }
  split.
  { exists (NApply (NLambda "x" (NApply (NVar "x") (NVar "x")))
                   (NLambda "x" (NApply (NVar "x") (NVar "x")))).
    split; [vm_compute; reflexivity | reflexivity]. }
  split; [reflexivity|]. split; [assumption|].
  unfold beta_left, bind. rewrite Hs. simpl. unfold bind.
  destruct (term_eq_refl_full (self_apply x) n) as [n2 H2]. now rewrite H2.
Qed.

(** X7. Substituting a closed term for [v] removes [v] from the free
    variables and changes nothing else among them. *)
Theorem subst_closed_removes_variable (t : term) (v : string) (e : term) :
  free_vars e = [] ->
  free_vars (subst t v e)
  = filter (fun x => negb (String.eqb x v)) (free_vars t).
Proof.
  apply free_vars_subst_closed.
Qed.

Lemma subst_closed_removes_variable_witness :
  free_vars (subst (Apply (Var "f") (Var "x")) "x" (Lambda "y" (Var "y")))
  = filter (fun x => negb (String.eqb x "x"))
      (free_vars (Apply (Var "f") (Var "x"))).
Proof.
  apply (subst_closed_removes_variable
           (Apply (Var "f") (Var "x")) "x" (Lambda "y" (Var "y"))).
  reflexivity.
Defined.

(** X8. Substituting for a variable that is not free in the term returns
    the term. *)
Theorem subst_absent_variable (t : term) (v : string) (e : term) :
  ~ In v (free_vars t) -> subst t v e = t.
Proof.
  apply subst_not_free.
Qed.

Lemma subst_absent_variable_witness :
  subst (Lambda "x" (Apply (Var "x") (Var "y"))) "x" (Val (VInt 1))
  = Lambda "x" (Apply (Var "x") (Var "y")).
Proof.
  apply (subst_absent_variable
           (Lambda "x" (Apply (Var "x") (Var "y"))) "x" (Val (VInt 1))).
  simpl. intros [H|[]]. discriminate.
Defined.

(** X9. Reduction adds no free variable: every free variable of the
    one-step image of a term is free in the term, and so is every free
    variable of every later result in the loop of [beta_left]. *)
Theorem reduction_adds_no_free_variable (t : term) (n : nat) :
  (forall z, In z (free_vars (fst (beta_step t n))) -> In z (free_vars t))
  /\ (forall k z,
        In z (free_vars (c_next (cfg_at k t n))) -> In z (free_vars t)).
Proof.
  split; [apply beta_step_free_vars|].
  induction k as [|k IH]; intros z.
  - unfold cfg_at, first_cfg. simpl.
    pose proof (beta_step_free_vars t n z) as Hs.
    destruct (beta_step t n) as [t1 n1]. simpl in *. assumption.
  - rewrite cfg_at_succ. unfold advance.
    pose proof (beta_step_free_vars (c_next (cfg_at k t n))
                  (snd (test (cfg_at k t n))) z) as Hs.
    destruct (beta_step (c_next (cfg_at k t n)) (snd (test (cfg_at k t n))))
      as [t2 n2]. simpl in *. auto.
Qed.

Lemma reduction_adds_no_free_variable_witness :
  In "y" (free_vars (Apply (Lambda "x" (Var "x")) (Var "y"))).
Proof.
  apply (reduction_adds_no_free_variable
           (Apply (Lambda "x" (Var "x")) (Var "y")) 1).
  simpl. auto.
Defined.

(** X10. Bindings whose names are not free in the term change nothing:
    [process_term] is then [beta_left] on the term as given. *)
Theorem process_term_skips_unused_bindings
  (fuel : nat) (known : env) (t : term) (n : nat) :
  (forall key val, In (key, val) known -> ~ In key (free_vars t)) ->
  process_term fuel known t n = beta_left fuel t n.
Proof.
  intros H. unfold process_term, bind.
  rewrite inline_known_subst.
  replace (fold_left (fun acc kv => subst acc (fst kv) (snd kv)) known t)
    with t; [reflexivity|].
  induction known as [|[key val] rest IH]; [reflexivity|].
  simpl. rewrite subst_not_free by (apply (H key val); simpl; auto).
  apply IH. intros k v Hin. apply (H k v). simpl. auto.
Qed.

Lemma process_term_skips_unused_bindings_witness :
  process_term 2 [("I", Lambda "x" (Var "x"))]
    (Apply (Lambda "x" (Var "x")) (Val (VInt 7))) 1
  = beta_left 2 (Apply (Lambda "x" (Var "x")) (Val (VInt 7))) 1.
Proof.
  apply (process_term_skips_unused_bindings 2
           [("I", Lambda "x" (Var "x"))]
           (Apply (Lambda "x" (Var "x")) (Val (VInt 7))) 1).
  intros key val [H|[]]. injection H as <- <-. simpl. auto.
Defined.

(** * Further properties of the lexer *)

(** ** What a pattern matches is a prefix of the text *)

Lemma app_assoc_string (a b c : string) : (a ++ b) ++ c = a ++ (b ++ c).
Proof.
  induction a as [|x a IH]; simpl; [reflexivity | now rewrite IH].
Qed.

Lemma app_nil_r_string (a : string) : a ++ "" = a.
Proof.
  induction a as [|x a IH]; simpl; [reflexivity | now rewrite IH].
Qed.

Lemma drop_add (n m : nat) :
  forall s : string, drop (n + m) s = drop m (drop n s).
Proof.
  induction n as [|n IH]; intros s; simpl; [reflexivity|].
  destruct s as [|c s]; [now destruct m | apply IH].
Qed.

Lemma take_while_prefix (p : ascii -> bool) (s : string) :
  take_while p s ++ drop (String.length (take_while p s)) s = s.
Proof.
  induction s as [|c s IH]; simpl; [reflexivity|].
  destruct (p c); simpl; [now rewrite IH | reflexivity].
Qed.

Lemma take_while_holds (p : ascii -> bool) (s : string) :
  all_chars p (take_while p s) = true.
Proof.
  induction s as [|c s IH]; simpl; [reflexivity|].
  destruct (p c) eqn:E; simpl; [now rewrite E | reflexivity].
Qed.

Lemma prefix_cons (c : ascii) (w s : string) :
  prefix_of w s -> prefix_of (String c w) (String c s).
Proof.
  unfold prefix_of. simpl. now intros ->.
Qed.

Lemma re_char_prefix (ch : ascii) (s w : string) :
  re_char ch s = Some w -> prefix_of w s.
Proof.
  destruct s as [|c s]; simpl; [discriminate|].
  destruct (Ascii.eqb c ch); [|discriminate].
  intros H. injection H as <-. reflexivity.
Qed.

Lemma re_ident_prefix (s w : string) :
  re_ident s = Some w -> prefix_of w s.
Proof.
  destruct s as [|c s]; simpl; [discriminate|].
  destruct (ident_start c); [|discriminate].
  intros H. injection H as <-. apply prefix_cons, take_while_prefix.
Qed.

Lemma re_prefixed_prefix (ch : ascii) (s w : string) :
  re_prefixed ch s = Some w -> prefix_of w s.
Proof.
  destruct s as [|c s]; simpl; [discriminate|].
  destruct (Ascii.eqb c ch); [|discriminate].
  destruct (re_ident s) as [w'|] eqn:E; simpl; [|discriminate].
  intros H. injection H as <-. now apply prefix_cons, re_ident_prefix.
Qed.

Lemma re_digits_prefix (s w : string) :
  re_digits s = Some w -> prefix_of w s.
Proof.
  unfold re_digits.
  destruct (take_while is_digit s) as [|c r] eqn:E; [discriminate|].
  intros H. injection H as <-. rewrite <- E. apply take_while_prefix.
Qed.

Lemma re_signed_digits_prefix (s w : string) :
  re_signed_digits s = Some w -> prefix_of w s.
Proof.
  destruct s as [|c s]; simpl; [discriminate|].
  destruct (Ascii.eqb c "-" || Ascii.eqb c "+").
  - destruct (re_digits s) as [w'|] eqn:E; simpl; [|discriminate].
    intros H. injection H as <-. now apply prefix_cons, re_digits_prefix.
  - apply re_digits_prefix.
Qed.

Lemma re_opt_prefix (r : string -> option string) (s : string) :
  (forall w, r s = Some w -> prefix_of w s) -> prefix_of (re_opt r s) s.
Proof.
  unfold re_opt. intros H. destruct (r s) as [w|]; [now apply H|].
  unfold prefix_of. reflexivity.
Qed.

Lemma prefix_app (a b s : string) :
  prefix_of a s -> prefix_of b (drop (String.length a) s) ->
  prefix_of (a ++ b) s.
Proof.
  unfold prefix_of. intros Ha Hb.
  rewrite length_app, drop_add, app_assoc_string. now rewrite Hb.
Qed.

Lemma re_number_prefix (s w : string) :
  re_number s = Some w -> prefix_of w s.
Proof.
  unfold re_number.
  destruct (re_signed_digits s) as [int_part|] eqn:E; [|discriminate].
  intros H. injection H as <-.
  apply prefix_app; [now apply re_signed_digits_prefix|].
  apply prefix_app.
  - apply re_opt_prefix. intros w.
    destruct (drop _ s) as [|c r]; [discriminate|].
    destruct (Ascii.eqb c ".") eqn:Ec.
    + apply Ascii.eqb_eq in Ec. subst c.
      destruct (re_digits r) as [w'|] eqn:Ed; simpl; [|discriminate].
      intros H. injection H as <-. now apply prefix_cons, re_digits_prefix.
    + intros H. exfalso.
      destruct c as [[] [] [] [] [] [] [] []]; try discriminate.
  - apply re_opt_prefix. intros w.
    destruct (drop _ (drop _ s)) as [|c r]; [discriminate|].
    destruct (Ascii.eqb c "E") eqn:Ec.
    + apply Ascii.eqb_eq in Ec. subst c.
      destruct (re_signed_digits r) as [w'|] eqn:Ed; simpl; [|discriminate].
      intros H. injection H as <-.
      now apply prefix_cons, re_signed_digits_prefix.
    + intros H. exfalso.
      destruct c as [[] [] [] [] [] [] [] []]; try discriminate.
Qed.

Lemma re_string_prefix (s w : string) :
  re_string s = Some w -> prefix_of w s.
Proof.
  intros H. apply re_string_spec in H.
  destruct H as [c [rest [_ [-> ->]]]]. reflexivity.
Qed.

Lemma first_match_prefix (s w : string) (key : token_key) :
  first_match TOKENS s = Some (key, w) -> prefix_of w s.
Proof.
  unfold TOKENS, first_match.
  destruct (re_char "(" s) eqn:E1;
    [intros H; injection H as _ <-; eapply re_char_prefix; eassumption|].
  destruct (re_char ")" s) eqn:E2;
    [intros H; injection H as _ <-; eapply re_char_prefix; eassumption|].
  destruct (re_char "." s) eqn:E3;
    [intros H; injection H as _ <-; eapply re_char_prefix; eassumption|].
  destruct (re_prefixed ":" s) eqn:E4;
    [intros H; injection H as _ <-; eapply re_prefixed_prefix; eassumption|].
  destruct (re_prefixed "@" s) eqn:E5;
    [intros H; injection H as _ <-; eapply re_prefixed_prefix; eassumption|].
  destruct (re_number s) eqn:E6;
    [intros H; injection H as _ <-; eapply re_number_prefix; eassumption|].
  destruct (re_string s) eqn:E7;
    [intros H; injection H as _ <-; eapply re_string_prefix; eassumption|].
  destruct (re_ident s) eqn:E8;
    [intros H; injection H as _ <-; eapply re_ident_prefix; eassumption|].
  discriminate.
Qed.

(* THEOREMS *)
(** X11. What [scan] does with the text: after the longest run of white
    space, it reads the token of the first pattern that matches, which is a
    prefix of what is left, has a character at least, and moves the offset
    by its length alone; at the end of the text it sets no token and keeps
    offset and word; and where no pattern matches it raises the invalid-token
    exception with the offset it had and the next twenty characters. *)
Theorem scan_splits_the_text (st : Parser.state) :
  exists ws rest,
    Parser.s st = ws ++ rest
    /\ all_chars is_space ws = true
    /\ match rest with
       | String c _ => is_space c = false
       | EmptyString => True
       end
    /\ match Parser.scan st with
       | Ok st' =>
           match Parser.token st' with
           | Some key =>
               first_match TOKENS rest = Some (key, Parser.word st')
               /\ rest = Parser.word st' ++ Parser.s st'
               /\ 1 <= String.length (Parser.word st')
               /\ Parser.pos st'
                  = Parser.pos st + String.length (Parser.word st')
           | None =>
               rest = "" /\ Parser.s st' = ""
               /\ Parser.pos st' = Parser.pos st
               /\ Parser.word st' = Parser.word st
           end
       | Raise e =>
           rest <> "" /\ first_match TOKENS rest = None
           /\ e = InvalidToken (Parser.pos st) (take 20 rest)
       | OutOfFuel => False
       end.
Proof.
  exists (take_while is_space (Parser.s st)).
  exists (drop (String.length (take_while is_space (Parser.s st)))
            (Parser.s st)).
  split; [symmetry; apply take_while_prefix|].
  split; [apply take_while_holds|].
  split.
  - induction (Parser.s st) as [|c r IH]; simpl; [exact I|].
    destruct (is_space c) eqn:E; simpl; assumption.
  - unfold Parser.scan.
    destruct (drop _ (Parser.s st)) as [|c r] eqn:Ed.
    + simpl. auto.
    + destruct (first_match TOKENS (String c r)) as [[key w]|] eqn:Em.
      * cbn [Parser.token Parser.word Parser.s Parser.pos].
        pose proof (first_match_prefix _ _ _ Em) as Hw.
        pose proof (first_match_nonempty _ _ _ Em) as Hn.
        unfold prefix_of in Hw. rewrite Hw. auto.
      * repeat split. discriminate.
Qed.

(** ** Numbers before identifiers *)

Lemma digit_is_not (c ch : ascii) :
  is_digit c = true -> is_digit ch = false -> Ascii.eqb c ch = false.
Proof.
  intros Hc Hch. destruct (Ascii.eqb c ch) eqn:E; [|reflexivity].
  apply Ascii.eqb_eq in E. congruence.
Qed.

Lemma re_digits_first (s w : string) :
  re_digits s = Some w -> exists c r, s = String c r /\ is_digit c = true.
Proof.
  unfold re_digits. destruct s as [|c r]; simpl; [discriminate|].
  destruct (is_digit c) eqn:E; [|discriminate]. eauto.
Qed.

Lemma re_number_first (s w : string) :
  re_number s = Some w ->
  exists c r,
    s = String c r
    /\ (is_digit c = true \/ c = "-"%char \/ c = "+"%char).
Proof.
  unfold re_number.
  destruct (re_signed_digits s) as [int_part|] eqn:E; [|discriminate].
  intros _. destruct s as [|c r]; [discriminate|].
  exists c, r. split; [reflexivity|].
  simpl in E.
  destruct (Ascii.eqb c "-") eqn:E1;
    [apply Ascii.eqb_eq in E1; auto|].
  destruct (Ascii.eqb c "+") eqn:E2;
    [apply Ascii.eqb_eq in E2; auto|].
  simpl in E. apply re_digits_first in E.
  destruct E as [c' [r' [Heq Hd]]]. injection Heq as <- <-. auto.
Qed.

Lemma first_match_number (s w : string) :
  re_number s = Some w -> first_match TOKENS s = Some (KNumber, w).
Proof.
  intros H. destruct (re_number_first s w H) as [c [r [-> Hc]]].
  unfold TOKENS, first_match. rewrite H.
  assert (Hne : forall ch, is_digit ch = false ->
                  ch <> "-"%char -> ch <> "+"%char ->
                  Ascii.eqb c ch = false).
  { intros ch Hd Hm Hp. destruct Hc as [Hc|[->| ->]].
    - now apply digit_is_not.
    - apply Ascii.eqb_neq. congruence.
    - apply Ascii.eqb_neq. congruence. }
  unfold re_char, re_prefixed.
  rewrite !Hne by (reflexivity || discriminate). reflexivity.
Qed.

(** X12. A text that the [number] pattern matches is lexed as a number,
    never as an identifier, although a sign and digits are characters of
    identifiers too. *)
Theorem number_wins_over_identifier (s w : string) :
  re_number s = Some w -> first_match TOKENS s = Some (KNumber, w).
Proof.
  apply first_match_number.
Qed.

Lemma number_wins_over_identifier_witness :
  first_match TOKENS "-5x" = Some (KNumber, "-5").
Proof.
  apply (number_wins_over_identifier "-5x" "-5"). reflexivity.
Defined.

(** X13. An identifier is read to its end: the [IDENT] pattern matches a
    prefix of the text made of identifier characters only, and the text
    left does not go on with an identifier character. *)
Theorem identifier_is_read_to_its_end (s w : string) :
  re_ident s = Some w ->
  all_chars ident_char w = true
  /\ s = w ++ drop (String.length w) s
  /\ match drop (String.length w) s with
     | String c _ => ident_char c = false
     | EmptyString => True
     end.
Proof.
  intros H. pose proof (re_ident_prefix s w H) as Hp.
  destruct s as [|c r]; simpl in H; [discriminate|].
  destruct (ident_start c) eqn:Es; [|discriminate].
  injection H as <-. repeat split.
  - simpl. rewrite take_while_holds, andb_true_r.
    unfold ident_start in Es. unfold ident_char.
    destruct (is_alpha c), (Ascii.eqb c "_"), (is_sym c), (is_digit c);
      simpl in *; congruence.
  - symmetry. exact Hp.
  - simpl. clear. induction r as [|d r IH]; simpl; [exact I|].
    destruct (ident_char d) eqn:E; simpl; [assumption | assumption].
Qed.

Lemma identifier_is_read_to_its_end_witness :
  all_chars ident_char "x=1" = true
  /\ "x=1.y" = "x=1" ++ drop (String.length "x=1") "x=1.y"
  /\ match drop (String.length "x=1") "x=1.y" with
     | String c _ => ident_char c = false
     | EmptyString => True
     end.
Proof.
  apply (identifier_is_read_to_its_end "x=1.y" "x=1"). reflexivity.
Defined.

(** ** Decimal texts of integers *)

Lemma string_of_uint_digits (d : uint) :
  all_chars is_digit (NilEmpty.string_of_uint d) = true.
Proof.
  induction d; simpl; auto.
Qed.

Ltac digit_arith :=
  match goal with
  | |- context [Z.of_nat ?k] =>
      let v := eval vm_compute in (Z.of_nat k) in
      change (Z.of_nat k) with v
  end; lia.

Lemma digits_value_pos (d : uint) :
  forall acc : positive,
    digits_value (Zpos acc) (NilEmpty.string_of_uint d)
    = Zpos (Pos.of_uint_acc d acc).
Proof.
  induction d; intros acc; cbn [NilEmpty.string_of_uint digits_value Pos.of_uint_acc];
    try reflexivity;
    match goal with
    | |- digits_value ?z _ = Zpos (Pos.of_uint_acc _ ?a) =>
        replace z with (Zpos a) by digit_arith
    end; apply IHd.
Qed.

Lemma digits_value_zero (d : uint) :
  digits_value 0 (NilEmpty.string_of_uint d) = Z.of_N (Pos.of_uint d).
Proof.
  induction d; cbn [NilEmpty.string_of_uint digits_value Pos.of_uint];
    try reflexivity;
    try (match goal with
         | |- digits_value ?z _ = Z.of_N (N.pos (Pos.of_uint_acc _ ?a)) =>
             replace z with (Zpos a) by digit_arith
         end; apply digits_value_pos).
  replace (10 * 0 + Z.of_nat (nat_of_ascii "0" - 48))%Z with 0%Z
    by reflexivity.
  assumption.
Qed.

Lemma digits_value_of_pos (p : positive) :
  digits_value 0 (NilEmpty.string_of_uint (Pos.to_uint p)) = Zpos p.
Proof.
  now rewrite digits_value_zero, DecimalPos.Unsigned.of_to.
Qed.

Lemma string_of_pos_first (p : positive) :
  exists c r,
    NilEmpty.string_of_uint (Pos.to_uint p) = String c r
    /\ is_digit c = true.
Proof.
  pose proof (DecimalPos.Unsigned.to_uint_nonnil p) as H.
  destruct (Pos.to_uint p); [contradiction| | | | | | | | | |];
    simpl; eauto.
Qed.

(** [int(str(n))] is [n]. *)
Lemma py_int_str_int (n : Z) : py_int (str_int n) = n.
Proof.
  destruct n as [|p|p]; [reflexivity| |].
  - unfold str_int.
    destruct (string_of_pos_first p) as [c [r [E Hc]]].
    rewrite <- (digits_value_of_pos p). rewrite E. unfold py_int.
    destruct c as [[] [] [] [] [] [] [] []]; try discriminate; reflexivity.
  - unfold str_int, py_int. now rewrite digits_value_of_pos.
Qed.

Lemma all_chars_impl (p q : ascii -> bool) (s : string) :
  (forall c, p c = true -> q c = true) ->
  all_chars p s = true -> all_chars q s = true.
Proof.
  intros H. induction s as [|c s IH]; simpl; [reflexivity|].
  intros Hs. apply andb_true_iff in Hs. destruct Hs as [Hc Hs].
  now rewrite (H c Hc), IH.
Qed.

Lemma find_absent (ch : ascii) (s : string) :
  all_chars (fun c => negb (Ascii.eqb c ch)) s = true ->
  find ch s = (-1)%Z.
Proof.
  induction s as [|c s IH]; simpl; [reflexivity|].
  intros H. apply andb_true_iff in H. destruct H as [Hc Hs].
  apply negb_true_iff in Hc. rewrite Hc, IH by assumption. reflexivity.
Qed.

Lemma digits_without (ch : ascii) (s : string) :
  is_digit ch = false ->
  all_chars is_digit s = true ->
  all_chars (fun c => negb (Ascii.eqb c ch)) s = true.
Proof.
  intros Hch. apply all_chars_impl. intros c Hc.
  apply negb_true_iff. now apply digit_is_not.
Qed.

Lemma re_digits_before_dot (ds : string) :
  all_chars is_digit ds = true -> ds <> "" ->
  re_digits (ds ++ ".") = Some ds.
Proof.
  intros Hd Hne. unfold re_digits.
  rewrite take_while_app_stop by (assumption || reflexivity).
  now destruct ds.
Qed.

Lemma re_number_before_dot (ds : string) :
  all_chars is_digit ds = true -> ds <> "" ->
  re_number (ds ++ ".") = Some ds
  /\ re_number (String "-" ds ++ ".") = Some (String "-" ds).
Proof.
  intros Hd Hne.
  assert (Hs : re_signed_digits (ds ++ ".") = Some ds).
  { destruct ds as [|c r]; [congruence|].
    simpl in Hd. apply andb_true_iff in Hd. destruct Hd as [Hc Hr].
    change (String c r ++ ".") with (String c (r ++ ".")).
    unfold re_signed_digits.
    rewrite !(digit_is_not c) by (assumption || reflexivity).
    cbn [orb]. change (String c (r ++ ".")) with (String c r ++ ".").
    apply re_digits_before_dot; [|discriminate].
    simpl. now rewrite Hc, Hr. }
  split.
  - unfold re_number. rewrite Hs, drop_length_app. cbn.
    now rewrite app_nil_r_string.
  - unfold re_number.
    change (String "-" ds ++ ".") with (String "-" (ds ++ ".")).
    cbn [re_signed_digits Ascii.eqb Bool.eqb orb andb].
    rewrite re_digits_before_dot by assumption. cbn [option_map].
    change (String "-" (ds ++ ".")) with (String "-" ds ++ ".").
    rewrite drop_length_app. cbn.
    now rewrite app_nil_r_string.
Qed.

Lemma digit_not_space (c : ascii) : is_digit c = true -> is_space c = false.
Proof.
  destruct c as [[] [] [] [] [] [] [] []]; try discriminate; reflexivity.
Qed.

Lemma scan_token (c : ascii) (r w : string) (key : token_key) (p : nat)
  (tk : option token_key) (wd : string) :
  is_space c = false ->
  first_match TOKENS (String c r) = Some (key, w) ->
  Parser.scan (Parser.mk_state (String c r) p tk wd)
  = Ok (Parser.mk_state (drop (String.length w) (String c r))
          (p + String.length w) (Some key) w).
Proof.
  intros Hc Hm. unfold Parser.scan. cbn [Parser.s Parser.pos Parser.word].
  cbn [take_while]. rewrite Hc. cbn [String.length drop]. now rewrite Hm.
Qed.

(** * Further properties of the parser *)

Section ParserMore.

Variable py_float : string -> pyfloat.

Lemma parse_fuel_stable (fuel fuel' : nat) (text : string) :
  fuel <= fuel' ->
  Parser.parse_fuel py_float fuel text <> OutOfFuel ->
  Parser.parse_fuel py_float fuel' text = Parser.parse_fuel py_float fuel text.
Proof.
  intros Hle. unfold Parser.parse_fuel.
  apply rbind_stable; [auto|]. intros st.
  apply rbind_stable; [intros; now apply parse_statements_stable|].
  now intros [res st1].
Qed.

(** What [parse_fuel] gives under some bound, [parse] gives. *)
Lemma parse_from_fuel (fuel : nat) (text : string) (r : result (list statement)) :
  Parser.parse_fuel py_float fuel text = r -> r <> OutOfFuel ->
  Parser.parse py_float text = r.
Proof.
  intros H Hr. subst r.
  rewrite <- (parse_fuel_enough py_float
                (Nat.max fuel (3 * String.length text + 2)) text) by lia.
  apply parse_fuel_stable; [lia | assumption].
Qed.

(** X14. [parse] ends on every text: each turn of each loop of the parser
    reads a token, so one result, a list of statements or an exception, is
    reached under every bound from three per character upwards. *)
Theorem parse_ends_on_every_text (text : string) :
  exists r,
    r <> OutOfFuel
    /\ forall fuel,
         3 * String.length text + 2 <= fuel ->
         Parser.parse_fuel py_float fuel text = r.
Proof.
  exists (Parser.parse py_float text). split.
  - apply parse_total.
  - intros fuel H. now apply parse_fuel_enough.
Qed.

(** X16. A text of white space only, the empty text among them, parses to
    the empty list. *)
Theorem parse_white_space (ws : string) :
  all_chars is_space ws = true -> Parser.parse py_float ws = Ok [].
Proof.
  intros H. apply (parse_from_fuel 1); [|discriminate].
  unfold Parser.parse_fuel. now rewrite scan_end.
Qed.

(** ** The messages of the parser's exceptions *)

Lemma raise_ok_bind {A B} (c : result A) (k : A -> result B) :
  raise_ok c -> (forall a, raise_ok (k a)) -> raise_ok (rbind c k).
Proof.
  destruct c as [a| |]; simpl; auto.
Qed.

Lemma scan_raise_ok (st : Parser.state) : raise_ok (Parser.scan st).
Proof.
  unfold Parser.scan.
  destruct (drop _ (Parser.s st)); [exact I|].
  destruct (first_match TOKENS _) as [[? ?]|]; exact I.
Qed.

Lemma error_raise_ok {A} (st : Parser.state) (msg : string) :
  In msg expected_messages -> raise_ok (@Parser.error A st msg).
Proof.
  auto.
Qed.

Lemma parse_loops_raise_ok (fuel : nat) :
  (forall acc st, raise_ok (Parser.parse_expr_loop py_float fuel acc st))
  /\ (forall ll st, raise_ok (Parser.parse_lambda_loop py_float fuel ll st)).
Proof.
  induction fuel as [|fuel [IHe IHl]]; [split; intros; exact I|].
  split.
  - intros acc st. cbn [Parser.parse_expr_loop].
    destruct (Parser.token st) as [[]|]; try exact I;
      try (apply raise_ok_bind; [apply scan_raise_ok | intros; apply IHe]).
    + apply raise_ok_bind; [apply scan_raise_ok|]. intros st1.
      apply raise_ok_bind; [apply IHe|]. intros [e st2].
      destruct (negb (Parser.token_is st2 KRpar)).
      * apply error_raise_ok. simpl. auto.
      * apply raise_ok_bind; [apply scan_raise_ok | intros; apply IHe].
    + apply error_raise_ok. simpl. auto.
    + apply raise_ok_bind; [apply IHl|]. intros [e st1]. apply IHe.
  - intros ll st. cbn [Parser.parse_lambda_loop].
    destruct (Parser.token_is st KLambda).
    + apply raise_ok_bind; [apply scan_raise_ok | intros; apply IHl].
    + apply raise_ok_bind; [apply IHe|]. now intros [e st1].
Qed.

Lemma parse_statement_raise_ok (fuel : nat) (st : Parser.state) :
  raise_ok (Parser.parse_statement py_float fuel st).
Proof.
  unfold Parser.parse_statement, Parser.parse_expr.
  destruct (Parser.token_is st KLet).
  - apply raise_ok_bind; [apply scan_raise_ok|]. intros st1.
    destruct (negb (Parser.token_is st1 KVar)
              || negb (String.eqb (Parser.word st1) "=")).
    + apply error_raise_ok. simpl. auto.
    + apply raise_ok_bind; [apply scan_raise_ok|]. intros st2.
      apply raise_ok_bind; [apply (proj1 (parse_loops_raise_ok fuel))|].
      now intros [e st3].
  - apply raise_ok_bind; [apply (proj1 (parse_loops_raise_ok fuel))|].
    now intros [e st1].
Qed.

Lemma parse_statements_raise_ok (fuel : nat) :
  forall res st,
    raise_ok (Parser.parse_statements py_float fuel res st)
    /\ forall res' st',
         Parser.parse_statements py_float fuel res st = Ok (res', st') ->
         Parser.token st' = None.
Proof.
  induction fuel as [|fuel IH]; intros res st; [split; [exact I | discriminate]|].
  cbn [Parser.parse_statements].
  destruct (Parser.token st) eqn:Htok.
  - pose proof (parse_statement_raise_ok fuel st) as Hs.
    destruct (Parser.parse_statement py_float fuel st) as [[item st1]| |];
      cbn [rbind]; try (split; [assumption || exact I | discriminate]).
    destruct (negb (Parser.token_is st1 KDot)).
    + split; [apply error_raise_ok; simpl; auto | discriminate].
    + pose proof (scan_raise_ok st1) as Hsc.
      destruct (Parser.scan st1) as [st2| |]; cbn [rbind];
        try (split; [assumption || exact I | discriminate]).
      apply IH.
  - split; [exact I|]. intros res' st' H. now injection H as <- <-.
Qed.

(** X15. A syntax exception of [parse] carries one of four messages; the
    message [EOF expected] of [parse] itself is never raised, as
    [parse_statements] only returns at the end of the text. *)
Theorem parse_messages (text : string) :
  match Parser.parse py_float text with
  | Raise (SyntaxError _ msg) =>
      In msg ["= expected"; ") expected"; "Unexpected token"; "'.' expected"]
  | _ => True
  end
  /\ forall p,
       Parser.parse py_float text <> Raise (SyntaxError p "EOF expected").
Proof.
  assert (Hok : raise_ok (Parser.parse py_float text)).
  { unfold Parser.parse, Parser.parse_fuel.
    apply raise_ok_bind; [apply scan_raise_ok|]. intros st.
    destruct (parse_statements_raise_ok
                (3 * String.length text + 2) [] st) as [Hr Hend].
    destruct (Parser.parse_statements py_float _ [] st)
      as [[res st1]| |]; cbn [rbind]; try assumption; try exact I.
    now rewrite (Hend res st1 eq_refl). }
  split; [exact Hok|].
  intros p H. rewrite H in Hok. unfold raise_ok, expected_messages in Hok.
  simpl in Hok. repeat destruct Hok as [Hok|Hok]; try discriminate; assumption.
Qed.

End ParserMore.

Lemma parse_white_space_witness :
  Parser.parse (fun _ => FZero false) "  " = Ok [].
Proof.
  apply (parse_white_space (fun _ => FZero false) "  "). reflexivity.
Defined.

(** * Rendering a literal and parsing it back *)

Section RoundTrips.

Variable py_float : string -> pyfloat.
Variable py_str_float : pyfloat -> string.

Lemma parse_number_text (c : ascii) (r : string) :
  is_space c = false ->
  re_number (String c r ++ ".") = Some (String c r) ->
  Parser.parse py_float (String c r ++ ".")
  = Ok [STerm (NVal (Parser.number_value py_float (String c r)))].
Proof.
  intros Hc Hn. apply (parse_from_fuel py_float 3); [|discriminate].
  unfold Parser.parse_fuel.
  change (String c r ++ ".") with (String c (r ++ ".")) in *.
  rewrite (scan_token c (r ++ ".") (String c r) KNumber)
    by (assumption || now apply first_match_number).
  change (String c (r ++ ".")) with (String c r ++ ".").
  rewrite drop_length_app. reflexivity.
Qed.

Lemma number_value_str_int (n : Z) :
  Parser.number_value py_float (str_int n) = VInt n.
Proof.
  unfold Parser.number_value.
  assert (H : forall ch, is_digit ch = false -> ch <> "-"%char ->
                find ch (str_int n) = (-1)%Z).
  { intros ch Hch Hm. apply find_absent.
    destruct n as [|p|p]; unfold str_int.
    - now apply digits_without.
    - apply digits_without; [assumption | apply string_of_uint_digits].
    - cbn [all_chars].
      rewrite digits_without
        by (assumption || apply string_of_uint_digits).
      rewrite andb_true_r. apply negb_true_iff, Ascii.eqb_neq. congruence. }
  rewrite !H by (reflexivity || discriminate).
  cbn [Z.gtb Z.compare orb]. now rewrite py_int_str_int.
Qed.

(** X17. Integers make the round trip: the rendering of an integer literal,
    followed by a dot, parses to the one statement that is this literal,
    for every integer, negative ones included. *)
Theorem int_literal_round_trip (n : Z) :
  Parser.parse py_float (repr py_str_float (Val (VInt n)) ++ ".")
  = Ok [STerm (NVal (VInt n))].
Proof.
  cbn [repr val_repr]. rewrite <- (number_value_str_int n).
  destruct n as [|p|p].
  - apply (parse_from_fuel py_float 3); [reflexivity | discriminate].
  - unfold str_int.
    destruct (string_of_pos_first p) as [c [r [E Hc]]].
    pose proof (string_of_uint_digits (Pos.to_uint p)) as Hd.
    rewrite E in *.
    apply parse_number_text; [now apply digit_not_space|].
    apply re_number_before_dot; [assumption | discriminate].
  - unfold str_int.
    destruct (string_of_pos_first p) as [c [r [E Hc]]].
    pose proof (string_of_uint_digits (Pos.to_uint p)) as Hd.
    apply parse_number_text; [reflexivity|].
    apply re_number_before_dot; [assumption|]. rewrite E. discriminate.
Qed.

(** X18. A string of one character that is no quote makes the round trip:
    its rendering, followed by a dot, parses to the one statement that is
    this literal. *)
Theorem one_char_string_round_trip (c : ascii) :
  Ascii.eqb c quote = false ->
  Parser.parse py_float (repr py_str_float (Val (VStr (String c ""))) ++ ".")
  = Ok [STerm (NVal (VStr (String c "")))].
Proof.
  intros Hc. cbn [repr val_repr replace_char]. rewrite Hc.
  change (String quote (String c "" ++ String quote "") ++ ".")
    with (String quote (String c (String quote "."))).
  apply (parse_from_fuel py_float 3); [|discriminate].
  unfold Parser.parse_fuel.
  rewrite (scan_token quote (String c (String quote "."))
             (quoted (String c "")) KString);
    [|reflexivity|].
  - cbn [rbind Parser.parse_statements Parser.token Parser.parse_statement
         Parser.token_is token_key_eqb Parser.parse_expr
         Parser.parse_expr_loop Parser.word].
    rewrite replace_quote_by_quote. reflexivity.
  - rewrite first_match_quote.
    change (String quote (String c (String quote ".")))
      with (quoted (String c "") ++ ".").
    now rewrite re_string_quoted_one.
Qed.

End RoundTrips.

Lemma one_char_string_round_trip_witness :
  Parser.parse (fun _ => FZero false)
    (repr (fun _ => "") (Val (VStr "a")) ++ ".")
  = Ok [STerm (NVal (VStr "a"))].
Proof.
  apply (one_char_string_round_trip (fun _ => FZero false) (fun _ => "") "a").
  reflexivity.
Defined.

(** * The library's [Y] *)

Lemma subst_Y_body (u : string) (k : nat) :
  subst (Y_body "f" k) "f" (Var u) = Y_body u k.
Proof.
  induction k as [|k IH]; [reflexivity|].
  cbn [Y_body subst]. now rewrite IH.
Qed.

Lemma size_Y_body (u : string) (k : nat) : size (Y_body u k) = 13 + 2 * k.
Proof.
  induction k as [|k IH]; [reflexivity|].
  cbn [Y_body size]. lia.
Qed.

Lemma eq_fuel_Apply (f : nat) (a b a' b' : term) (n : nat) :
  eq_fuel (S f) (Apply a b) (Apply a' b') n
  = (r <- eq_fuel f a a' ;; if r then eq_fuel f b b' else ret false) n.
Proof.
  reflexivity.
Qed.

Lemma eq_fuel_Var (f : nat) (x y : string) (n : nat) :
  1 <= f -> eq_fuel f (Var x) (Var y) n = (String.eqb x y, n).
Proof.
  destruct f; [lia | reflexivity].
Qed.

Lemma eq_fuel_Y_body (u : string) (k : nat) :
  forall (fuel n : nat),
    size (Y_body u k) <= fuel ->
    eq_fuel fuel (Y_body u k) (Y_body u (S k)) n = (false, n).
Proof.
  induction k as [|k IH]; intros fuel n Hf.
  - rewrite size_Y_body in Hf.
    destruct fuel as [|[|fuel]]; try lia. reflexivity.
  - rewrite size_Y_body in Hf.
    destruct fuel as [|fuel]; [lia|].
    change (Y_body u (S (S k))) with (Apply (Var u) (Y_body u (S k))).
    change (Y_body u (S k)) with (Apply (Var u) (Y_body u k)) at 1.
    rewrite eq_fuel_Apply. unfold bind.
    rewrite eq_fuel_Var by lia. rewrite String.eqb_refl.
    apply IH. rewrite size_Y_body. lia.
Qed.

Lemma eq_fuel_Lambda (f : nat) (v v' : string) (b b' : term) (n : nat) :
  eq_fuel (S f) (Lambda v b) (Lambda v' b') n
  = eq_fuel f (subst b v (Var (fresh_name n)))
      (subst b' v' (Var (fresh_name n))) (S n).
Proof.
  reflexivity.
Qed.

Lemma term_eq_Y_iterate (k n : nat) :
  term_eq (Y_iterate k) (Y_iterate (S k)) n = (false, S n).
Proof.
  unfold term_eq, Y_iterate.
  change (size (Lambda "f" (Y_body "f" k))) with (S (size (Y_body "f" k))).
  rewrite eq_fuel_Lambda, !subst_Y_body.
  apply eq_fuel_Y_body. rewrite !size_Y_body. lia.
Qed.

Lemma beta_step_Y_body (k n : nat) :
  beta_step (Y_body "f" k) n = (Y_body "f" (S k), n).
Proof.
  induction k as [|k IH]; [reflexivity|].
  change (Y_body "f" (S k)) with (Apply (Var "f") (Y_body "f" k)) at 1.
  rewrite beta_step_Apply_other by discriminate.
  unfold bind.
  replace (beta_step (Var "f") n) with (Var "f", n) by reflexivity.
  replace (term_eq (Var "f") (Var "f") n) with (true, n) by reflexivity.
  now rewrite IH.
Qed.

Lemma beta_step_Y_iterate (k n : nat) :
  beta_step (Y_iterate k) n = (Y_iterate (S k), n).
Proof.
  unfold Y_iterate. cbn [beta_step]. unfold bind.
  now rewrite beta_step_Y_body.
Qed.

Lemma beta_loop_Y_iterate (fuel : nat) :
  forall k n,
    fst (beta_loop fuel (Y_iterate k) (Y_iterate (S k)) n) = None.
Proof.
  induction fuel as [|fuel IH]; intros k n; [reflexivity|].
  cbn [beta_loop]. unfold bind.
  rewrite term_eq_Y_iterate, beta_step_Y_iterate. apply IH.
Qed.

(** X19. The library binds [Y] to a term on which [beta_left] does not
    return: each step puts one more [f] in front, no two consecutive terms
    compare equal, and the loop goes on under every bound. *)
Theorem library_Y_is_not_reduced (py_float : string -> pyfloat)
  (fuel n : nat) :
  (exists x,
      Parser.parse py_float ":Y = @f (@g f (g g))(@g f (g g))."
      = Ok [SLet "Y" x]
      /\ term_of_node x = Some (Y_iterate 0))
  /\ (forall k m, beta_step (Y_iterate k) m = (Y_iterate (S k), m))
  /\ (forall k m, term_eq (Y_iterate k) (Y_iterate (S k)) m = (false, S m))
  /\ fst (beta_left fuel (Y_iterate 0) n) = None.
Proof.
  split.
  { exists (NLambda "f"
              (NApply
                 (NLambda "g" (NApply (NVar "f") (NApply (NVar "g") (NVar "g"))))
                 (NLambda "g" (NApply (NVar "f") (NApply (NVar "g") (NVar "g")))))).
    split; [vm_compute; reflexivity | reflexivity]. }
  split; [exact beta_step_Y_iterate|].
  split; [exact term_eq_Y_iterate|].
  unfold beta_left, bind. rewrite beta_step_Y_iterate.
  apply beta_loop_Y_iterate.
Qed.

(** * [beta_left] between terms of user names *)

Lemma names_subst (t : term) (v : string) (e : term) (z : string) :
  In z (names (subst t v e)) -> In z (names t) \/ In z (names e).
Proof.
  induction t as [w b IH|f IHf a IHa|c|x]; simpl.
  - destruct (String.eqb v w); simpl; [tauto|].
    intros [H|H]; [tauto|]. apply IH in H. tauto.
  - rewrite !in_app_iff. tauto.
  - tauto.
  - destruct (String.eqb x v); [rewrite copy_id; tauto | simpl; tauto].
Qed.

Lemma names_beta_step (t : term) :
  forall (n : nat) (z : string),
    In z (names (fst (beta_step t n))) -> In z (names t).
Proof.
  induction t as [v b IH|f IHf e IHe|c|x]; intros n z.
  - simpl. unfold bind. specialize (IH n).
    destruct (beta_step b n) as [b' n']. simpl in *.
    intros [H|H]; auto.
  - assert (Hcase : (exists v b, f = Lambda v b)
                    \/ (forall v b, f <> Lambda v b))
      by (destruct f; eauto; right; intros; discriminate).
    destruct Hcase as [[v [b ->]]|Hother].
    + simpl. intros H. apply names_subst in H.
      rewrite in_app_iff. tauto.
    + rewrite beta_step_Apply_other by assumption.
      unfold bind.
      destruct (beta_step f n) as [nf n1] eqn:E1.
      destruct (term_eq f nf n1) as [[|] n2].
      * destruct (beta_step e n2) as [ne n3] eqn:E2.
        cbn [fst ret names]. rewrite !in_app_iff.
        intros [H|H].
        -- left. apply (IHf n). now rewrite E1.
        -- right. apply (IHe n2). now rewrite E2.
      * cbn [fst ret names]. rewrite copy_id, !in_app_iff.
        intros [H|H]; [|now right].
        left. apply (IHf n). now rewrite E1.
  - simpl. auto.
  - simpl. auto.
Qed.

Lemma user_names_beta_step (t : term) (n : nat) :
  user_names t -> user_names (fst (beta_step t n)).
Proof.
  intros H k Hin. apply (H k). now apply names_beta_step in Hin.
Qed.

Lemma cfg_at_user_names (t : term) (n k : nat) :
  user_names t ->
  user_names (c_prev (cfg_at k t n)) /\ user_names (c_next (cfg_at k t n)).
Proof.
  intros H. induction k as [|k [IHp IHn]].
  - unfold cfg_at, first_cfg. simpl.
    pose proof (user_names_beta_step t n H) as Hs.
    destruct (beta_step t n) as [t1 n1]. simpl in *. auto.
  - rewrite cfg_at_succ. unfold advance.
    pose proof (user_names_beta_step (c_next (cfg_at k t n))
                  (snd (test (cfg_at k t n))) IHn) as Hs.
    destruct (beta_step (c_next (cfg_at k t n)) (snd (test (cfg_at k t n))))
      as [t2 n2]. simpl in *. auto.
Qed.

Lemma test_user_names (t : term) (n k : nat) :
  user_names t ->
  fst (test (cfg_at k t n))
  = aeq 0 [] [] (c_prev (cfg_at k t n)) (c_next (cfg_at k t n)).
Proof.
  intros H. destruct (cfg_at_user_names t n k H) as [Hp Hn].
  unfold test. now apply term_eq_decides_aeq.
Qed.

(** X20. On a term that holds no name of the form of a fresh name,
    [beta_left] returns [r] exactly when, within the bound, some pair of
    consecutive results is equal up to bound names; [r] is then the later
    term of the first such pair. *)
Theorem beta_left_with_user_names
  (fuel : nat) (t r : term) (n n' : nat) :
  user_names t ->
  (beta_left fuel t n = (Some r, n') <->
   exists k,
     k < fuel
     /\ (forall j, j < k ->
           aeq 0 [] [] (c_prev (cfg_at j t n)) (c_next (cfg_at j t n))
           = false)
     /\ aeq 0 [] [] (c_prev (cfg_at k t n)) (c_next (cfg_at k t n)) = true
     /\ r = c_next (cfg_at k t n)
     /\ n' = snd (test (cfg_at k t n))).
Proof.
  intros H. rewrite beta_left_first_stop. split.
  - intros [k [Hk [Hfirst [Hstop Hr]]]]. exists k.
    split; [assumption|]. split.
    + intros j Hj. rewrite <- test_user_names by assumption. auto.
    + rewrite <- test_user_names by assumption.
      rewrite Hstop. auto.
  - intros [k [Hk [Hfirst [Hstop [Hr Hn]]]]]. exists k.
    split; [assumption|]. split.
    + intros j Hj. rewrite test_user_names by assumption. auto.
    + split; [|assumption].
      rewrite <- test_user_names in Hstop by assumption.
      destruct (test (cfg_at k t n)); simpl in *. congruence.
Qed.

Lemma beta_left_with_user_names_witness :
  beta_left 3 (Apply (Lambda "a" (Var "a")) (Val (VInt 5))) 1
  = (Some (Val (VInt 5)), 1) <->
  exists k,
    k < 3
    /\ (forall j, j < k ->
          aeq 0 [] []
            (c_prev (cfg_at j (Apply (Lambda "a" (Var "a")) (Val (VInt 5))) 1))
            (c_next (cfg_at j (Apply (Lambda "a" (Var "a")) (Val (VInt 5))) 1))
          = false)
    /\ aeq 0 [] []
         (c_prev (cfg_at k (Apply (Lambda "a" (Var "a")) (Val (VInt 5))) 1))
         (c_next (cfg_at k (Apply (Lambda "a" (Var "a")) (Val (VInt 5))) 1))
       = true
    /\ Val (VInt 5)
       = c_next (cfg_at k (Apply (Lambda "a" (Var "a")) (Val (VInt 5))) 1)
    /\ 1 = snd (test (cfg_at k (Apply (Lambda "a" (Var "a")) (Val (VInt 5))) 1)).
Proof.
  apply (beta_left_with_user_names 3
           (Apply (Lambda "a" (Var "a")) (Val (VInt 5))) (Val (VInt 5)) 1 1).
  intros k Hin. simpl in Hin. destruct Hin as [Hin|[Hin|[]]]; discriminate.
Defined.
